(** * ld_proto: the example language-detection server and its batch client

    A shallow embedding of [examples/server/main.go] (the word-list detector
    and its gRPC handler) and of [examples/third_party_service/main.go] (the
    document processor and its batch loop), with the properties the
    specification states about them.

    Conventions of the embedding.
    - Go strings are byte strings: [string] (a list of 8-bit [ascii]).
    - Go's [int] counters are [nat]: a counter is bounded by the number of
      bytes of the text times the size of the word table, far below 2^63.
    - A [float32] confidence is the exact rational it rounds: [Q], kept in
      lowest terms.  The quotients computed here are of two non-negative
      integers below 2^63, so rounding keeps their sign, keeps non-zero
      quotients away from zero and keeps the comparison with 1.0.  Where a
      statement gives the value of a confidence that is a quotient, it gives
      it within 2^-20, which the rounded value satisfies as well.
    - A Go map is a [gmap].  A [range] over a map visits every entry once in
      an order the language leaves unspecified: that order is an input of the
      model ([RangeOrder]).
    - [strings.ToLower] and [strings.Fields] belong to Go's library: the
      detector is parametric in them ([Strings]), and [ascii_strings] is their
      behaviour on ASCII text. *)

From Stdlib Require Import Ascii String QArith Qabs Qminmax.
From stdpp Require Import gmap strings list fin_maps.

Local Open Scope string_scope.

(** ** The [strings] package *)

Class Strings := {
  ToLower : string → string;
  Fields : string → list string
}.

(** Both library functions have a path for text that is ASCII only:
    [ToLower] adds ['a' - 'A'] to the bytes between ['A'] and ['Z'], and
    [Fields] splits around runs of the six bytes of its [asciiSpace] table. *)
Definition asciiLower (c : ascii) : ascii :=
  let n := nat_of_ascii c in
  if decide (65 ≤ n ≤ 90)%nat then ascii_of_nat (n + 32) else c.

Fixpoint asciiToLower (s : string) : string :=
  match s with
  | EmptyString => EmptyString
  | String c s' => String (asciiLower c) (asciiToLower s')
  end.

Definition asciiSpace (c : ascii) : bool :=
  bool_decide (nat_of_ascii c ∈ [9; 10; 11; 12; 13; 32]).

(** [field] is the field being read, empty between two fields. *)
Fixpoint fieldsFrom (field s : string) : list string :=
  match s with
  | EmptyString => if decide (field = "") then [] else [field]
  | String c s' =>
      if asciiSpace c then
        if decide (field = "") then fieldsFrom "" s'
        else field :: fieldsFrom "" s'
      else fieldsFrom (field +:+ String c "") s'
  end.

Definition asciiFields (s : string) : list string := fieldsFrom "" s.

Definition ascii_strings : Strings :=
  {| ToLower := asciiToLower; Fields := asciiFields |}.

(** ** Messages of package [pb] *)

Module pb.

(** Modelled from the spec: the generated message type
    [pb.LanguageAlternative] is not among the sources; its fields are those
    the server assigns and the wire shapes list. *)
Record LanguageAlternative := {
  alt_LanguageCode : string;
  alt_Confidence : Q
}.

(** Modelled from the spec: [pb.DetectLanguageRequest], absent from the
    sources; the three fields the callers fill. *)
Record DetectLanguageRequest := {
  req_Text : string;
  req_DocumentId : string;
  req_Metadata : gmap string string
}.

(** Modelled from the spec: [pb.ProcessingMetadata], absent from the sources. *)
Record ProcessingMetadata := {
  meta_ProcessingTimeMs : Z;
  meta_ServiceVersion : string;
  meta_ModelVersion : string;
  meta_Provider : string
}.

(** Modelled from the spec: [pb.DetectLanguageResponse], absent from the
    sources; [resp_Metadata] is a pointer, [None] when nil. *)
Record DetectLanguageResponse := {
  resp_LanguageCode : string;
  resp_Confidence : Q;
  resp_Alternatives : list LanguageAlternative;
  resp_DocumentId : string;
  resp_Metadata : option ProcessingMetadata
}.

End pb.
Import pb.

(** Go's [error] interface, seen through its one method. *)
Record error := { Error : string }.

(** ** A state monad for the code that reads clocks, calls the service and logs *)

Definition State (S A : Type) : Type := S → A * S.

Global Instance state_ret {S} : MRet (State S) := λ A a st, (a, st).
Global Instance state_bind {S} : MBind (State S) :=
  λ A B f m st, f (m st).1 (m st).2.

(** ** The word-list detector: [detectLanguage] *)

Definition languageWords : gmap string (list string) :=
  list_to_map
    [ ("en", ["the"; "and"; "is"; "in"; "to"; "of"; "a"; "that"; "it"; "with"]);
      ("es", ["el"; "la"; "de"; "que"; "y"; "a"; "en"; "un"; "es"; "se"]);
      ("fr", ["le"; "de"; "et"; "à"; "un"; "il"; "être"; "et"; "en"; "avoir"]);
      ("de", ["der"; "die"; "und"; "in"; "den"; "von"; "zu"; "das"; "mit"; "sich"]);
      ("it", ["il"; "di"; "che"; "e"; "la"; "per"; "un"; "in"; "con"; "da"]) ].

(** The orders in which one run of [detectLanguage] ranges over its maps:
    over [languageWords] while the word numbered [i] is scored, over [scores]
    in the best-match loop, and over [scores] again in the alternatives loop. *)
Record RangeOrder := {
  order_table : nat → list (string * list string);
  order_best : gmap string nat → list (string * nat);
  order_alts : gmap string nat → list (string * nat);
  order_table_perm : ∀ i, order_table i ≡ₚ map_to_list languageWords;
  order_best_perm : ∀ m, order_best m ≡ₚ map_to_list m;
  order_alts_perm : ∀ m, order_alts m ≡ₚ map_to_list m
}.

(** [scores[lang]++]: a key that is absent reads as 0. *)
Definition incr (lang : string) (scores : gmap string nat) : gmap string nat :=
  <[lang := S (scores !!! lang)]> scores.

(** The innermost loop: one language's word list against one word. *)
Definition scanWords (word lang : string) (langWords : list string)
    (scores : gmap string nat) : gmap string nat :=
  foldl (λ sc langWord, if decide (word = langWord) then incr lang sc else sc)
        scores langWords.

(** The loop over [languageWords] for one word. *)
Definition scanTable (table : list (string * list string)) (word : string)
    (scores : gmap string nat) : gmap string nat :=
  foldl (λ sc entry, scanWords word entry.1 entry.2 sc) scores table.

(** The loop over [words]: the state is [(scores, totalWords)]. *)
Definition countStep (o : RangeOrder) (st : gmap string nat * nat) (word : string)
    : gmap string nat * nat :=
  (scanTable (order_table o st.2) word st.1, S st.2).

Definition countWords (o : RangeOrder) (words : list string) : gmap string nat * nat :=
  foldl (countStep o) (∅, 0) words.

(** The best-match loop: the state is [(bestLang, bestScore)]. *)
Definition bestStep (best : string * nat) (entry : string * nat) : string * nat :=
  if decide (best.2 < entry.2) then (entry.1, entry.2) else best.

Definition findBest (entries : list (string * nat)) : string * nat :=
  foldl bestStep ("en", 0) entries.

(** [float32(score) / float32(totalWords)], then the clamp to 1.0. *)
Definition ratio (score totalWords : nat) : Q :=
  Qred (Z.of_nat score # Pos.of_nat totalWords).

Definition clamp (c : Q) : Q :=
  if Qlt_le_dec 1 c then 1%Q else c.

(** The alternatives loop. *)
Definition altStep (bestLang : string) (totalWords : nat)
    (alternatives : list LanguageAlternative) (entry : string * nat)
    : list LanguageAlternative :=
  if decide (entry.1 ≠ bestLang ∧ 0 < entry.2) then
    alternatives ++
      [ {| alt_LanguageCode := entry.1;
           alt_Confidence := clamp (ratio entry.2 totalWords) |} ]
  else alternatives.

Definition collectAlternatives (bestLang : string) (totalWords : nat)
    (entries : list (string * nat)) : list LanguageAlternative :=
  foldl (altStep bestLang totalWords) [] entries.

Definition detectWords (o : RangeOrder) (words : list string)
    : string * Q * list LanguageAlternative :=
  let '(scores, totalWords) := countWords o words in
  if decide (totalWords = 0) then ("unknown", 0%Q, [])
  else
    let '(bestLang, bestScore) := findBest (order_best o scores) in
    let confidence := clamp (ratio bestScore totalWords) in
    let alternatives := collectAlternatives bestLang totalWords (order_alts o scores) in
    (bestLang, confidence, alternatives).

Definition detectLanguage {lib : Strings} (o : RangeOrder) (text : string)
    : string * Q * list LanguageAlternative :=
  let text := ToLower text in
  let words := Fields text in
  detectWords o words.

(** ** Two concrete runs *)

Definition map_order : RangeOrder :=
  {| order_table := λ _, map_to_list languageWords;
     order_best := map_to_list;
     order_alts := map_to_list;
     order_table_perm := λ _, Permutation_refl _;
     order_best_perm := λ _, Permutation_refl _;
     order_alts_perm := λ _, Permutation_refl _ |}.

Definition reverse_order : RangeOrder :=
  {| order_table := λ _, reverse (map_to_list languageWords);
     order_best := λ m, reverse (map_to_list m);
     order_alts := λ m, reverse (map_to_list m);
     order_table_perm := λ _, reverse_Permutation _;
     order_best_perm := λ m, reverse_Permutation _;
     order_alts_perm := λ m, reverse_Permutation _ |}.

(** ** The gRPC handler: [server.DetectLanguage] *)

(** The receiver has no field and the context is not read.  [elapsed] is
    what [time.Since(start)] reads, a [Duration] in nanoseconds;
    [Milliseconds] is an integer division that truncates.  The two results are
    Go's pair of a response pointer and an [error], [None] for nil. *)
Definition DetectLanguage {lib : Strings} (o : RangeOrder) (elapsed : Z)
    (req : DetectLanguageRequest)
    : option DetectLanguageResponse * option error :=
  let '(languageCode, confidence, alternatives) := detectLanguage o (req_Text req) in
  let processingTime := elapsed in
  (Some {| resp_LanguageCode := languageCode;
           resp_Confidence := confidence;
           resp_Alternatives := alternatives;
           resp_DocumentId := req_DocumentId req;
           resp_Metadata :=
             Some {| meta_ProcessingTimeMs := Z.quot processingTime 1000000;
                     meta_ServiceVersion := "1.0.0";
                     meta_ModelVersion := "simple-word-based-v1.0";
                     meta_Provider := "ld_proto_example" |} |},
   None).

(** ** The third-party service *)

Module ThirdParty.

(** Fixed-width integers: the two's-complement value of the low [w] bits. *)
Definition wrap (w : Z) (n : Z) : Z :=
  (n + 2 ^ (w - 1)) `mod` 2 ^ w - 2 ^ (w - 1).

Definition byte_string (bs : list Z) : string :=
  foldr (λ b s, String (ascii_of_N (Z.to_N b)) s) EmptyString bs.

(** The conversion [string(rune(n))]: [rune] is [int32], and the string is
    the UTF-8 encoding of the code point, U+FFFD for what is not one. *)
Definition string_of_rune (n : Z) : string :=
  let r := wrap 32 n in
  if decide (r < 0 ∨ 1114111 < r ∨ 55296 ≤ r ≤ 57343)%Z then
    byte_string [239; 191; 189]%Z
  else if decide (r < 128)%Z then byte_string [r]
  else if decide (r < 2048)%Z then
    byte_string [Z.lor 192 (Z.shiftr r 6); Z.lor 128 (Z.land r 63)]
  else if decide (r < 65536)%Z then
    byte_string [Z.lor 224 (Z.shiftr r 12);
                 Z.lor 128 (Z.land (Z.shiftr r 6) 63);
                 Z.lor 128 (Z.land r 63)]
  else
    byte_string [Z.lor 240 (Z.shiftr r 18);
                 Z.lor 128 (Z.land (Z.shiftr r 12) 63);
                 Z.lor 128 (Z.land (Z.shiftr r 6) 63);
                 Z.lor 128 (Z.land r 63)].

(** [time.Time], an instant the model does not look into. *)
Definition Time : Type := Z.

Record LanguageAlternative := {
  Language : string;
  Confidence : Q
}.

Record DocumentInfo := {
  ID : string;
  Content : string;
  doc_Language : string;
  doc_Confidence : Q;
  ProcessedAt : Time;
  Alternatives : list LanguageAlternative;
  ProcessingTime : Z;
  ServiceVersion : string;
  ModelVersion : string;
  Provider : string
}.

Record Document := {
  doc_ID : string;
  doc_Content : string
}.

Section Service.

(** The surroundings of the process (clock, network) and the type of
    [context.Context]. *)
Context {World Ctx : Type}.

(** [time.Now] and [Time.Format(time.RFC3339)]. *)
Variable time_Now : State World Time.
Variable Format_RFC3339 : Time → string.

(** Modelled from the spec: the client interface
    [pb.LanguageDetectionServiceClient], absent from the sources.  A call
    either completes with a response or fails with a transport error. *)
Record LanguageDetectionServiceClient := {
  client_DetectLanguage :
    Ctx → DetectLanguageRequest → State World (error + DetectLanguageResponse)
}.

Record ThirdPartyService := {
  languageClient : LanguageDetectionServiceClient
}.

(** The two results of the Go method are a sum here: the method returns
    either [(nil, err)] or [(docInfo, nil)].  The slice of alternatives, made
    with the length of the response's and filled index by index, is the
    response's list mapped; the fields of the metadata stay at their zero
    values when the response has none. *)
Definition ProcessDocument (s : ThirdPartyService) (ctx : Ctx)
    (content docID : string) : State World (error + DocumentInfo) :=
  now ← time_Now;
  let req :=
    {| req_Text := content;
       req_DocumentId := docID;
       req_Metadata :=
         list_to_map
           [ ("service", "third_party_service");
             ("version", "1.0.0");
             ("timestamp", Format_RFC3339 now);
             ("content_len", string_of_rune (Z.of_nat (String.length content))) ] |} in
  r ← client_DetectLanguage (languageClient s) ctx req;
  match r with
  | inl err => mret (inl err)
  | inr resp =>
      processedAt ← time_Now;
      let docInfo :=
        {| ID := docID;
           Content := content;
           doc_Language := resp_LanguageCode resp;
           doc_Confidence := resp_Confidence resp;
           ProcessedAt := processedAt;
           Alternatives :=
             (λ alt, {| Language := alt_LanguageCode alt;
                        Confidence := alt_Confidence alt |})
               <$> resp_Alternatives resp;
           ProcessingTime := 0;
           ServiceVersion := "";
           ModelVersion := "";
           Provider := "" |} in
      mret (inr
        match resp_Metadata resp with
        | Some meta =>
            {| ID := ID docInfo;
               Content := Content docInfo;
               doc_Language := doc_Language docInfo;
               doc_Confidence := doc_Confidence docInfo;
               ProcessedAt := ProcessedAt docInfo;
               Alternatives := Alternatives docInfo;
               ProcessingTime := wrap 64 (meta_ProcessingTimeMs meta * 1000000);
               ServiceVersion := meta_ServiceVersion meta;
               ModelVersion := meta_ModelVersion meta;
               Provider := meta_Provider meta |}
        | None => docInfo
        end)
  end.

(** The process: its surroundings and what the standard logger has
    written (the message of each line, without the logger's prefix). *)
Record Process := {
  world : World;
  logged : list string
}.

Definition inWorld {A} (m : State World A) : State Process A :=
  λ p, ((m (world p)).1, {| world := (m (world p)).2; logged := logged p |}).

(** [log.Printf("Failed to process document %s: %v", doc.ID, err)] *)
Definition failureMessage (id : string) (err : error) : string :=
  "Failed to process document " +:+ id +:+ ": " +:+ Error err.

Definition logFailure (id : string) (err : error) : State Process () :=
  λ p, ((), {| world := world p;
               logged := logged p ++ [failureMessage id err] |}).

(** The loop of [BatchProcessDocuments], from the documents still to visit
    and the [results] appended so far. *)
Fixpoint batchLoop (s : ThirdPartyService) (ctx : Ctx) (documents : list Document)
    (results : list DocumentInfo) : State Process (list DocumentInfo) :=
  match documents with
  | [] => mret results
  | doc :: documents =>
      r ← inWorld (ProcessDocument s ctx (doc_Content doc) (doc_ID doc));
      match r with
      | inl err =>
          logFailure (doc_ID doc) err ≫= λ _,
          batchLoop s ctx documents results
      | inr docInfo => batchLoop s ctx documents (results ++ [docInfo])
      end
  end.

Definition BatchProcessDocuments (s : ThirdPartyService) (ctx : Ctx)
    (documents : list Document) : State Process (list DocumentInfo * option error) :=
  results ← batchLoop s ctx documents [];
  mret (results, None).

(** The statements about the batch speak of the outcome of each document
    when the documents are processed one after the other, of the outcomes
    that are results, and of the lines logged for those that are errors. *)
Fixpoint outcomes (s : ThirdPartyService) (ctx : Ctx) (documents : list Document)
    : State World (list (error + DocumentInfo)) :=
  match documents with
  | [] => mret []
  | doc :: documents =>
      r ← ProcessDocument s ctx (doc_Content doc) (doc_ID doc);
      rs ← outcomes s ctx documents;
      mret (r :: rs)
  end.

Definition successes (outs : list (error + DocumentInfo)) : list DocumentInfo :=
  omap (λ r, match r with inr docInfo => Some docInfo | inl _ => None end) outs.

Definition failed (outs : list (error + DocumentInfo)) : list error :=
  omap (λ r, match r with inl err => Some err | inr _ => None end) outs.

Fixpoint failureLines (documents : list Document)
    (outs : list (error + DocumentInfo)) : list string :=
  match documents, outs with
  | doc :: documents, inl err :: outs =>
      failureMessage (doc_ID doc) err :: failureLines documents outs
  | _ :: documents, inr _ :: outs => failureLines documents outs
  | _, _ => []
  end.

End Service.

End ThirdParty.

(** ** Vocabulary of the statements *)

(** [word] is in the word list of some language. *)
Definition stopWord (word : string) : Prop :=
  Exists (λ entry, word ∈ entry.2) (map_to_list languageWords).

Global Instance stopWord_dec word : Decision (stopWord word).
Proof. unfold stopWord. apply _. Defined.

(** The scores of a text, and the languages that share its highest score. *)
Definition scoresOf {lib : Strings} (text : string) : gmap string nat :=
  (countWords map_order (Fields (ToLower text))).1.

Definition topScore (scores : gmap string nat) : nat :=
  max_list (map_to_list scores).*2.

Definition leaders (scores : gmap string nat) : list string :=
  (filter (λ entry, entry.2 = topScore scores) (map_to_list scores)).*1.

Definition recognized : list string := ["en"; "es"; "fr"; "de"; "it"].

Definition inUnit (c : Q) : Prop := (0 <= c)%Q ∧ (c <= 1)%Q.

(** Text made of ASCII white space only. *)
Fixpoint blank (s : string) : bool :=
  match s with
  | EmptyString => true
  | String c s' => asciiSpace c && blank s'
  end.

(** The number of times [word] stands in the word list of [lang] (twice for
    a word listed twice), and the number of such hits over the words of a
    text. *)
Definition wordList (lang : string) : list string :=
  default [] (languageWords !! lang).

Definition occurrences (word : string) (langWords : list string) : nat :=
  length (filter (word =.) langWords).

Definition hits (lang word : string) : nat :=
  occurrences word (wordList lang).

Definition tally (lang : string) (words : list string) : nat :=
  sum_list_with (hits lang) words.

(** [m] holds the positive values of [f] and no other key. *)
Definition Tallied (m : gmap string nat) (f : string → nat) : Prop :=
  ∀ k, m !! k = if decide (f k = 0) then None else Some (f k).


(** A scenario for the batch: the service is the handler above, reached
    over a link whose second call fails; the surroundings count the calls
    made, and the clock stands still. *)
Definition transientFailure : error :=
  {| Error := "rpc error: code = Unavailable desc = transport is closing" |}.

Definition flakyClient : ThirdParty.LanguageDetectionServiceClient (World:=nat) (Ctx:=()) :=
  {| ThirdParty.client_DetectLanguage := λ _ req calls,
       if decide (calls = 1) then (inl transientFailure, S calls)
       else
         match DetectLanguage (lib:=ascii_strings) map_order 0 req with
         | (Some resp, None) => (inr resp, S calls)
         | (_, Some err) => (inl err, S calls)
         | (None, None) => (inl transientFailure, S calls)
         end |}.

Definition flakyService : ThirdParty.ThirdPartyService :=
  {| ThirdParty.languageClient := flakyClient |}.

Definition stoppedClock : State nat ThirdParty.Time := λ calls, (0%Z, calls).

Definition fourDocuments : list ThirdParty.Document :=
  [ {| ThirdParty.doc_ID := "doc-002";
       ThirdParty.doc_Content := "Hola, este es un documento en español." |};
    {| ThirdParty.doc_ID := "doc-003";
       ThirdParty.doc_Content := "Bonjour, ceci est un document en français." |};
    {| ThirdParty.doc_ID := "doc-004";
       ThirdParty.doc_Content := "Hallo, dies ist ein Dokument auf Deutsch." |};
    {| ThirdParty.doc_ID := "doc-005";
       ThirdParty.doc_Content := "Ciao, questo è un documento in italiano." |} ].

(** A link that hands each request to the handler above and brings its
    answer back: no failure of the transport, and surroundings left as they
    are.  [o] and [elapsed] are the range orders and the clock reading of the
    handler. *)
Definition serverLink {World Ctx : Type} (lib : Strings) (o : RangeOrder) (elapsed : Z)
    : ThirdParty.LanguageDetectionServiceClient (World:=World) (Ctx:=Ctx) :=
  {| ThirdParty.client_DetectLanguage := λ _ req w,
       match DetectLanguage o elapsed req with
       | (Some resp, None) => (inr resp, w)
       | (_, Some err) => (inl err, w)
       | (None, None) => (inl {| Error := "nil response" |}, w)
       end |}.

(** A client that answers by [answer] and keeps the requests it was sent,
    in order: the surroundings are that record. *)
Definition recordingClient {Ctx : Type}
    (answer : DetectLanguageRequest → error + DetectLanguageResponse)
    : ThirdParty.LanguageDetectionServiceClient
        (World:=list DetectLanguageRequest) (Ctx:=Ctx) :=
  {| ThirdParty.client_DetectLanguage := λ _ req sent,
       (answer req, (sent ++ [req])%list) |}.

(** A clock that reads [t] and leaves the surroundings as they are. *)
Definition clockAt {World : Type} (t : ThirdParty.Time) : State World ThirdParty.Time :=
  λ w, (t, w).

(** * Properties of the detector *)

(** ** The scoring loop does not depend on the order of the table *)

Lemma foldl_commute_Permutation {A B} (f : B → A → B) (l1 l2 : list A) :
  (∀ b x y, f (f b x) y = f (f b y) x) →
  l1 ≡ₚ l2 → ∀ b, foldl f b l1 = foldl f b l2.
Proof.
  intros Hf. induction 1 as [|x l1 l2 _ IH|x y l|l1 l2 l3 _ IH12 _ IH23];
    intros b; simpl.
  - done.
  - apply IH.
  - by rewrite Hf.
  - by rewrite IH12.
Qed.

Lemma incr_commute a b (m : gmap string nat) :
  incr a (incr b m) = incr b (incr a m).
Proof.
  unfold incr. destruct (decide (a = b)) as [->|Hab]; [done|].
  rewrite (lookup_total_insert_ne _ b a) by done.
  rewrite (lookup_total_insert_ne _ a b) by done.
  by apply insert_insert_ne.
Qed.

Lemma scanWords_cons w a x la (m : gmap string nat) :
  scanWords w a (x :: la) m =
  scanWords w a la (if decide (w = x) then incr a m else m).
Proof. done. Qed.

Lemma incr_scanWords a w b lws (m : gmap string nat) :
  incr a (scanWords w b lws m) = scanWords w b lws (incr a m).
Proof.
  unfold scanWords. revert m.
  induction lws as [|lw lws IH]; intros m; simpl; [done|].
  rewrite IH. case_decide; [|done]. by rewrite incr_commute.
Qed.

Lemma scanWords_commute w a la b lb (m : gmap string nat) :
  scanWords w a la (scanWords w b lb m) = scanWords w b lb (scanWords w a la m).
Proof.
  revert m. induction la as [|x la IH]; intros m; [done|].
  rewrite !scanWords_cons. case_decide.
  - by rewrite incr_scanWords, IH.
  - apply IH.
Qed.

Lemma scanTable_Permutation t1 t2 w (m : gmap string nat) :
  t1 ≡ₚ t2 → scanTable t1 w m = scanTable t2 w m.
Proof.
  intros Ht. unfold scanTable.
  apply foldl_commute_Permutation; [|done].
  intros sc x y. simpl. apply scanWords_commute.
Qed.

Lemma countLoop_order o1 o2 words st :
  foldl (countStep o1) st words = foldl (countStep o2) st words.
Proof.
  revert st. induction words as [|w words IH]; intros st; simpl; [done|].
  rewrite IH. f_equal. unfold countStep. f_equal.
  apply scanTable_Permutation.
  by rewrite !order_table_perm.
Qed.

Lemma countWords_order o1 o2 words : countWords o1 words = countWords o2 words.
Proof. apply countLoop_order. Qed.

Lemma countLoop_total o words st :
  (foldl (countStep o) st words).2 = st.2 + length words.
Proof.
  revert st. induction words as [|w words IH]; intros st; simpl; [lia|].
  rewrite IH. simpl. lia.
Qed.

Lemma countWords_total o words : (countWords o words).2 = length words.
Proof. unfold countWords. by rewrite countLoop_total. Qed.

(** ** Which languages can score *)

Lemma incr_is_Some k a (m : gmap string nat) :
  is_Some (incr a m !! k) ↔ k = a ∨ is_Some (m !! k).
Proof.
  unfold incr. destruct (decide (a = k)) as [->|Hak].
  - rewrite lookup_insert_eq. split; [by left|by eexists].
  - rewrite lookup_insert_ne by done. split; [by right|].
    by intros [->|Hk].
Qed.

Lemma scanWords_is_Some k w a la (m : gmap string nat) :
  is_Some (scanWords w a la m !! k) → k = a ∨ is_Some (m !! k).
Proof.
  revert m. induction la as [|x la IH]; intros m; [by right|].
  rewrite scanWords_cons. intros [->|Hk]%IH; [by left|].
  case_decide; [|by right]. by apply incr_is_Some.
Qed.

Lemma scanTable_is_Some k t w (m : gmap string nat) :
  is_Some (scanTable t w m !! k) → k ∈ t.*1 ∨ is_Some (m !! k).
Proof.
  unfold scanTable. revert m.
  induction t as [|[a la] t IH]; intros m; simpl; [by right|].
  intros [Hk|Hk]%IH.
  - left. by right.
  - apply scanWords_is_Some in Hk as [->|Hk]; [left; by left|by right].
Qed.

Lemma countLoop_is_Some k o words st :
  is_Some ((foldl (countStep o) st words).1 !! k) →
  k ∈ (map_to_list languageWords).*1 ∨ is_Some (st.1 !! k).
Proof.
  revert st. induction words as [|w words IH]; intros st; simpl; [by right|].
  intros [Hk|Hk]%IH; [by left|]. simpl in Hk.
  apply scanTable_is_Some in Hk as [Hk|Hk]; [left|by right].
  by rewrite order_table_perm in Hk.
Qed.

Lemma table_languages :
  Forall (λ lang, lang ∈ recognized) (map_to_list languageWords).*1.
Proof. apply (bool_decide_unpack _). vm_compute. exact I. Qed.

Lemma countWords_recognized o words lang score :
  (countWords o words).1 !! lang = Some score → lang ∈ recognized.
Proof.
  intros Hl. destruct (countLoop_is_Some lang o words (∅, 0)) as [Hk|Hk].
  - unfold countWords in Hl. by rewrite Hl.
  - by apply (proj1 (Forall_forall _ _) table_languages).
  - simpl in Hk. rewrite lookup_empty in Hk. by destruct Hk.
Qed.

(** ** Words that are in no list leave the scores as they are *)

Lemma scanWords_no_match w a la (m : gmap string nat) :
  w ∉ la → scanWords w a la m = m.
Proof.
  revert m. induction la as [|x la IH]; intros m Hw; [done|].
  rewrite scanWords_cons. apply not_elem_of_cons in Hw as [Hx Hw].
  rewrite decide_False by done. by apply IH.
Qed.

Lemma scanTable_no_match t w (m : gmap string nat) :
  Forall (λ entry, w ∉ entry.2) t → scanTable t w m = m.
Proof.
  unfold scanTable. induction 1 as [|[a la] t Ha _ IH]; simpl; [done|].
  by rewrite scanWords_no_match.
Qed.

Lemma not_stopWord_table o i w :
  ¬ stopWord w → Forall (λ entry, w ∉ entry.2) (order_table o i).
Proof.
  intros Hw. rewrite order_table_perm.
  apply Forall_forall. intros entry Hentry Hin.
  apply Hw. apply Exists_exists. eauto.
Qed.

Lemma countLoop_no_match o words st :
  Forall (λ w, ¬ stopWord w) words →
  foldl (countStep o) st words = (st.1, st.2 + length words).
Proof.
  intros Hwords. revert st.
  induction Hwords as [|w words Hw _ IH]; intros [m n]; simpl.
  - f_equal. lia.
  - rewrite IH. unfold countStep. simpl.
    rewrite scanTable_no_match by by apply not_stopWord_table.
    f_equal. lia.
Qed.

Lemma countWords_no_match o words :
  Forall (λ w, ¬ stopWord w) words → countWords o words = (∅, length words).
Proof. intros Hw. unfold countWords. by rewrite countLoop_no_match. Qed.

(** ** The best-match loop *)

Lemma bestLoop_spec (l : list (string * nat)) b0 n0 :
  let r := foldl bestStep (b0, n0) l in
  (r = (b0, n0) ∧ Forall (λ entry, (entry.2 ≤ n0)%nat) l) ∨
  (n0 < r.2 ∧ r ∈ l ∧ Forall (λ entry, (entry.2 ≤ r.2)%nat) l).
Proof.
  revert b0 n0. induction l as [|[a n] l IH]; intros b0 n0; simpl.
  - left. by split.
  - unfold bestStep at 2 4 6 8. simpl. case_decide as Hn.
    + destruct (IH a n) as [[Hr Hl]|(Hlt & Hr & Hl)].
      * right. rewrite Hr. simpl. repeat split; [done|by left|].
        by constructor.
      * right. repeat split; [lia|by right|]. constructor; [simpl; lia|done].
    + destruct (IH b0 n0) as [[Hr Hl]|(Hlt & Hr & Hl)].
      * left. split; [done|]. constructor; [simpl; lia|done].
      * right. repeat split; [done|by right|]. constructor; [simpl; lia|done].
Qed.

Lemma findBest_spec (l : list (string * nat)) :
  (findBest l = ("en", 0) ∧ Forall (λ entry, (entry.2 ≤ 0)%nat) l) ∨
  (0 < (findBest l).2 ∧ findBest l ∈ l ∧
   Forall (λ entry, (entry.2 ≤ (findBest l).2)%nat) l).
Proof. apply bestLoop_spec. Qed.

Lemma findBest_nil : findBest [] = ("en", 0).
Proof. done. Qed.

(** ** Confidence values *)

Lemma ratio_nonneg score totalWords : (0 <= ratio score totalWords)%Q.
Proof.
  unfold ratio. rewrite Qred_correct. unfold Qle. simpl. lia.
Qed.

Lemma ratio_zero totalWords : ratio 0 totalWords = 0%Q.
Proof.
  unfold ratio. change 0%Q with (Qred 0). by apply Qred_complete.
Qed.

Lemma clamp_inUnit c : (0 <= c)%Q → inUnit (clamp c).
Proof.
  intros Hc. unfold clamp, inUnit.
  destruct (Qlt_le_dec 1 c); split; done.
Qed.

Lemma clamp_zero : clamp 0 = 0%Q.
Proof. unfold clamp. by destruct (Qlt_le_dec 1 0). Qed.

Lemma clamp_ratio_inUnit score totalWords :
  inUnit (clamp (ratio score totalWords)).
Proof. apply clamp_inUnit, ratio_nonneg. Qed.

(** ** The alternatives loop *)

Lemma altLoop_Forall (P : LanguageAlternative → Prop) bestLang totalWords
    (entries : list (string * nat)) alternatives :
  (∀ lang score, lang ≠ bestLang →
     P {| alt_LanguageCode := lang;
          alt_Confidence := clamp (ratio score totalWords) |}) →
  Forall P alternatives →
  Forall P (foldl (altStep bestLang totalWords) alternatives entries).
Proof.
  intros HP. revert alternatives.
  induction entries as [|[lang score] entries IH]; intros alternatives Halt;
    simpl; [done|].
  apply IH. unfold altStep. simpl. case_decide as Hd; [|done].
  apply Forall_app. split; [done|].
  constructor; [|done]. apply HP. by destruct Hd.
Qed.

Lemma collectAlternatives_Forall (P : LanguageAlternative → Prop) bestLang
    totalWords (entries : list (string * nat)) :
  (∀ lang score, lang ≠ bestLang →
     P {| alt_LanguageCode := lang;
          alt_Confidence := clamp (ratio score totalWords) |}) →
  Forall P (collectAlternatives bestLang totalWords entries).
Proof. intros HP. by apply altLoop_Forall. Qed.

(** ** The two exits of [detectLanguage] *)

Lemma detectWords_nil o : detectWords o [] = ("unknown", 0%Q, []).
Proof. done. Qed.

Lemma detectWords_words o words :
  words ≠ [] →
  detectWords o words =
    let scores := (countWords map_order words).1 in
    let best := findBest (order_best o scores) in
    (best.1, clamp (ratio best.2 (length words)),
     collectAlternatives best.1 (length words) (order_alts o scores)).
Proof.
  intros Hwords. unfold detectWords.
  rewrite (countWords_order o map_order).
  pose proof (countWords_total map_order words) as Htotal.
  destruct (countWords map_order words) as [scores totalWords].
  simpl in Htotal. subst totalWords.
  rewrite decide_False by by destruct words.
  simpl. by destruct (findBest (order_best o scores)).
Qed.

Lemma DetectLanguage_response {lib : Strings} o elapsed req :
  DetectLanguage o elapsed req =
    (Some {| resp_LanguageCode := (detectLanguage o (req_Text req)).1.1;
             resp_Confidence := (detectLanguage o (req_Text req)).1.2;
             resp_Alternatives := (detectLanguage o (req_Text req)).2;
             resp_DocumentId := req_DocumentId req;
             resp_Metadata :=
               Some {| meta_ProcessingTimeMs := Z.quot elapsed 1000000;
                       meta_ServiceVersion := "1.0.0";
                       meta_ModelVersion := "simple-word-based-v1.0";
                       meta_Provider := "ld_proto_example" |} |},
     None).
Proof.
  unfold DetectLanguage.
  by destruct (detectLanguage o (req_Text req)) as [[code conf] alts].
Qed.

Lemma order_best_elem o (scores : gmap string nat) lang score :
  (lang, score) ∈ order_best o scores ↔ scores !! lang = Some score.
Proof. by rewrite order_best_perm, elem_of_map_to_list. Qed.

Lemma order_empty (l : list (string * nat)) :
  l ≡ₚ map_to_list (∅ : gmap string nat) → l = [].
Proof. rewrite map_to_list_empty. apply Permutation_nil_r. Qed.

Lemma detectWords_no_match o words :
  words ≠ [] → Forall (λ w, ¬ stopWord w) words →
  detectWords o words = ("en", 0%Q, []).
Proof.
  intros Hne Hwords. rewrite detectWords_words by done. simpl.
  rewrite countWords_no_match by done. simpl.
  rewrite (order_empty _ (order_best_perm o ∅)).
  rewrite (order_empty _ (order_alts_perm o ∅)).
  rewrite findBest_nil. simpl.
  by rewrite ratio_zero, clamp_zero.
Qed.

Lemma detectWords_code o words :
  (detectWords o words).1.1 = "unknown" ∧ words = [] ∨
  (detectWords o words).1.1 ∈ recognized ∧ words ≠ [].
Proof.
  destruct words as [|w words]; [left; by rewrite detectWords_nil|].
  right. split; [|done]. rewrite detectWords_words by done. simpl.
  destruct (findBest_spec (order_best o (countWords map_order (w :: words)).1))
    as [[-> _]|(_ & Hin & _)].
  - simpl. by left.
  - destruct (findBest _) as [lang score]. simpl.
    apply order_best_elem in Hin. by eapply countWords_recognized.
Qed.

(** ** Text without words *)

Lemma asciiSpace_asciiLower c : asciiSpace (asciiLower c) = asciiSpace c.
Proof. destruct c as [[] [] [] [] [] [] [] []]; vm_compute; reflexivity. Qed.

Lemma fieldsFrom_blank s : blank s = true → fieldsFrom "" s = [].
Proof.
  induction s as [|c s IH]; simpl; [done|].
  intros [Hc Hs]%andb_prop. rewrite Hc. by apply IH.
Qed.

Lemma blank_asciiToLower s : blank (asciiToLower s) = blank s.
Proof.
  induction s as [|c s IH]; simpl; [done|].
  by rewrite asciiSpace_asciiLower, IH.
Qed.

Lemma asciiFields_blank s : blank s = true → asciiFields (asciiToLower s) = [].
Proof.
  intros Hs. apply fieldsFrom_blank. by rewrite blank_asciiToLower.
Qed.

Lemma DetectLanguage_no_words {lib : Strings} o elapsed req :
  Fields (ToLower (req_Text req)) = [] →
  ∃ resp, DetectLanguage o elapsed req = (Some resp, None) ∧
    resp_LanguageCode resp = "unknown" ∧
    resp_Confidence resp = 0%Q ∧
    resp_Alternatives resp = [].
Proof.
  intros Hwords. eexists. split; [apply DetectLanguage_response|].
  simpl. unfold detectLanguage. by rewrite Hwords.
Qed.

(** * The claims about the server *)

(** C1, on the code: for the text "Hello, world!" the handler answers "en"
    with confidence 0.0 and no alternative, whatever the range orders, the
    clock and the other fields of the request.  Neither "hello," nor "world!"
    is in a word list, so "en" is the untouched default and no score is
    positive. *)
Theorem hello_world_scores_nothing o elapsed docID metadata :
  DetectLanguage (lib:=ascii_strings) o elapsed
    {| req_Text := "Hello, world!"; req_DocumentId := docID;
       req_Metadata := metadata |} =
  (Some {| resp_LanguageCode := "en";
           resp_Confidence := 0%Q;
           resp_Alternatives := [];
           resp_DocumentId := docID;
           resp_Metadata :=
             Some {| meta_ProcessingTimeMs := Z.quot elapsed 1000000;
                     meta_ServiceVersion := "1.0.0";
                     meta_ModelVersion := "simple-word-based-v1.0";
                     meta_Provider := "ld_proto_example" |} |},
   None).
Proof.
  rewrite DetectLanguage_response. simpl.
  unfold detectLanguage.
  change (Fields (ToLower "Hello, world!")) with ["hello,"; "world!"].
  rewrite detectWords_no_match; [done|done|].
  apply (bool_decide_unpack _). vm_compute. exact I.
Qed.

(** C3: a request whose text has no words is answered with the code
    "unknown", confidence 0.0 and no alternative.  This holds for every
    implementation of the strings package, and with the ASCII one the text
    has no words when it is empty or made of white space only. *)
Theorem no_words_unknown :
  (∀ (lib : Strings) o elapsed req,
     Fields (ToLower (req_Text req)) = [] →
     ∃ resp, DetectLanguage o elapsed req = (Some resp, None) ∧
       resp_LanguageCode resp = "unknown" ∧
       resp_Confidence resp = 0%Q ∧
       resp_Alternatives resp = []) ∧
  (∀ o elapsed req,
     blank (req_Text req) = true →
     ∃ resp, DetectLanguage (lib:=ascii_strings) o elapsed req = (Some resp, None) ∧
       resp_LanguageCode resp = "unknown" ∧
       resp_Confidence resp = 0%Q ∧
       resp_Alternatives resp = []).
Proof.
  split.
  - intros lib o elapsed req. apply DetectLanguage_no_words.
  - intros o elapsed req Hblank.
    apply (DetectLanguage_no_words (lib:=ascii_strings)).
    by apply asciiFields_blank.
Qed.

Lemma no_words_unknown_witness :
  blank "" = true ∧
  blank (String (ascii_of_nat 32) (String (ascii_of_nat 9) (String (ascii_of_nat 10) ""))) = true ∧
  (∃ resp, DetectLanguage (lib:=ascii_strings) map_order 0
             {| req_Text := ""; req_DocumentId := "doc-123"; req_Metadata := ∅ |}
           = (Some resp, None) ∧
     resp_LanguageCode resp = "unknown" ∧
     resp_Confidence resp = 0%Q ∧
     resp_Alternatives resp = []) ∧
  (∃ resp, DetectLanguage (lib:=ascii_strings) reverse_order 0
             {| req_Text := String (ascii_of_nat 32) (String (ascii_of_nat 9)
                              (String (ascii_of_nat 10) ""));
                req_DocumentId := ""; req_Metadata := ∅ |}
           = (Some resp, None) ∧
     resp_LanguageCode resp = "unknown" ∧
     resp_Confidence resp = 0%Q ∧
     resp_Alternatives resp = []).
Proof.
  split; [reflexivity|]. split; [reflexivity|]. split.
  - apply (proj2 no_words_unknown). reflexivity.
  - apply (proj2 no_words_unknown). reflexivity.
Defined.

(** ** Ties for the highest score *)

Lemma topScore_bound (scores : gmap string nat) lang n :
  scores !! lang = Some n →
  Forall (λ entry, (entry.2 ≤ n)%nat) (map_to_list scores) →
  topScore scores = n.
Proof.
  intros Hlang Hle. unfold topScore.
  apply elem_of_map_to_list in Hlang.
  assert (n ∈ (map_to_list scores).*2) as Hn.
  { apply list_elem_of_fmap. by exists (lang, n). }
  apply Nat.le_antisymm; [|by apply max_list_elem_of_le].
  assert ((map_to_list scores).*2 ≠ []) as Hne.
  { intros Hnil. rewrite Hnil in Hn. by apply elem_of_nil in Hn. }
  apply max_list_elem_of in Hne.
  apply list_elem_of_fmap in Hne as (entry & -> & Hentry).
  by apply (proj1 (Forall_forall _ _) Hle).
Qed.

Lemma leaders_elem (scores : gmap string nat) lang :
  scores !! lang = Some (topScore scores) → lang ∈ leaders scores.
Proof.
  intros Hlang. unfold leaders. apply list_elem_of_fmap.
  exists (lang, topScore scores). split; [done|].
  apply list_elem_of_filter. split; [done|].
  by apply elem_of_map_to_list.
Qed.

Lemma untied_leader (scores : gmap string nat) lang1 lang2 n :
  (length (leaders scores) ≤ 1)%nat →
  Forall (λ entry, (entry.2 ≤ n)%nat) (map_to_list scores) →
  scores !! lang1 = Some n → scores !! lang2 = Some n → lang1 = lang2.
Proof.
  intros Hone Hle H1 H2.
  pose proof (topScore_bound _ _ _ H1 Hle) as Htop. subst n.
  apply leaders_elem in H1, H2.
  destruct (leaders scores) as [|lang [|lang' rest]]; simpl in Hone.
  - by apply elem_of_nil in H1.
  - apply list_elem_of_singleton in H1, H2. congruence.
  - lia.
Qed.

Lemma findBest_order (l1 l2 : list (string * nat)) (scores : gmap string nat) :
  l1 ≡ₚ map_to_list scores → l2 ≡ₚ map_to_list scores →
  (findBest l1).2 = (findBest l2).2 ∧
  ((length (leaders scores) ≤ 1)%nat → (findBest l1).1 = (findBest l2).1).
Proof.
  intros Hl1 Hl2.
  pose proof (findBest_spec l1) as S1. pose proof (findBest_spec l2) as S2.
  destruct (findBest l1) as [b1 n1], (findBest l2) as [b2 n2]. simpl in *.
  assert (l1 ≡ₚ l2) as Hl12 by by rewrite Hl1, Hl2.
  destruct S1 as [[E1 F1]|(P1 & I1 & F1)], S2 as [[E2 F2]|(P2 & I2 & F2)].
  - by simplify_eq.
  - simplify_eq. rewrite <-Hl12 in I2.
    apply (proj1 (Forall_forall _ _) F1) in I2. simpl in I2. lia.
  - simplify_eq. rewrite Hl12 in I1.
    apply (proj1 (Forall_forall _ _) F2) in I1. simpl in I1. lia.
  - assert (n1 = n2) as <-.
    { apply Nat.le_antisymm.
      - rewrite Hl12 in I1. by apply (proj1 (Forall_forall _ _) F2) in I1.
      - rewrite <-Hl12 in I2. by apply (proj1 (Forall_forall _ _) F1) in I2. }
    split; [done|]. intros Hone.
    rewrite Hl1 in I1, F1. rewrite Hl2 in I2.
    apply elem_of_map_to_list in I1, I2.
    by apply (untied_leader scores b1 b2 n1).
Qed.

(** C2, as the code has it: two runs on requests with the same text, under
    any range orders and clock readings and whatever the other fields of
    the requests, both answer with a response and no error and give the same
    confidence; they give the same language code whenever at most one
    language has the highest score of the text (in particular when no word
    scores). *)
Theorem same_confidence_and_untied_code (lib : Strings) o1 o2 elapsed1 elapsed2
    req1 req2 :
  req_Text req1 = req_Text req2 →
  ∃ resp1 resp2,
    DetectLanguage o1 elapsed1 req1 = (Some resp1, None) ∧
    DetectLanguage o2 elapsed2 req2 = (Some resp2, None) ∧
    resp_Confidence resp1 = resp_Confidence resp2 ∧
    ((length (leaders (scoresOf (req_Text req1))) ≤ 1)%nat →
     resp_LanguageCode resp1 = resp_LanguageCode resp2).
Proof.
  intros Htext.
  do 2 eexists. split; [apply DetectLanguage_response|].
  split; [apply DetectLanguage_response|]. simpl. rewrite <-Htext.
  unfold detectLanguage, scoresOf.
  destruct (decide (Fields (ToLower (req_Text req1)) = [])) as [->|Hne].
  - by rewrite !detectWords_nil.
  - rewrite !detectWords_words by done. simpl.
    destruct (findBest_order _ _ _
                (order_best_perm o1 (countWords map_order (Fields (ToLower (req_Text req1)))).1)
                (order_best_perm o2 (countWords map_order (Fields (ToLower (req_Text req1)))).1))
      as [Hscore Hlang].
    split; [by rewrite Hscore|done].
Qed.

Lemma same_confidence_and_untied_code_witness :
  (length (leaders (scoresOf (lib:=ascii_strings) "the cat is in la casa")) ≤ 1)%nat ∧
  ∃ resp1 resp2,
    DetectLanguage (lib:=ascii_strings) map_order 0
      {| req_Text := "the cat is in la casa"; req_DocumentId := "a";
         req_Metadata := ∅ |} = (Some resp1, None) ∧
    DetectLanguage (lib:=ascii_strings) reverse_order 5000000
      {| req_Text := "the cat is in la casa"; req_DocumentId := "b";
         req_Metadata := {[ "source" := "user_input" ]} |} = (Some resp2, None) ∧
    resp_Confidence resp1 = resp_Confidence resp2 ∧
    resp_LanguageCode resp1 = resp_LanguageCode resp2.
Proof.
  assert (length (leaders (scoresOf (lib:=ascii_strings) "the cat is in la casa")) ≤ 1)%nat
    as Hone by (vm_compute; lia).
  split; [exact Hone|].
  destruct (same_confidence_and_untied_code ascii_strings map_order reverse_order
              0 5000000
              {| req_Text := "the cat is in la casa"; req_DocumentId := "a";
                 req_Metadata := ∅ |}
              {| req_Text := "the cat is in la casa"; req_DocumentId := "b";
                 req_Metadata := {[ "source" := "user_input" ]} |}
              eq_refl)
    as (resp1 & resp2 & H1 & H2 & Hconf & Hcode).
  exists resp1, resp2. repeat split; [exact H1|exact H2|exact Hconf|].
  apply Hcode. exact Hone.
Defined.

(** C2 as stated fails: the text "a" scores one for English and one for
    Spanish, and the language code follows the order in which the best-match
    loop meets the two. *)
Lemma tie_follows_range_order :
  let req := {| req_Text := "a"; req_DocumentId := "doc-123"; req_Metadata := ∅ |} in
  resp_LanguageCode <$> (DetectLanguage (lib:=ascii_strings) map_order 0 req).1
    = Some "es" ∧
  resp_LanguageCode <$> (DetectLanguage (lib:=ascii_strings) reverse_order 0 req).1
    = Some "en".
Proof. split; vm_compute; reflexivity. Qed.

Lemma detectWords_inUnit o words :
  inUnit (detectWords o words).1.2 ∧
  Forall (λ alt, inUnit (alt_Confidence alt)) (detectWords o words).2.
Proof.
  destruct words as [|w words].
  - rewrite detectWords_nil. simpl. split; [by split|constructor].
  - rewrite detectWords_words by done. simpl. split.
    + apply clamp_ratio_inUnit.
    + apply collectAlternatives_Forall. intros lang score _.
      apply clamp_ratio_inUnit.
Qed.

Lemma countWords_et : countWords map_order ["et"] = ({[ "fr" := 2 ]}, 1).
Proof. vm_compute. reflexivity. Qed.

(** C4: the confidence of every response and of each of its alternatives is
    between 0.0 and 1.0, and the handler answers without an error.  A score
    above the number of words is clamped: "et" is twice in the French list,
    so the one-word text "et" scores 2, a quotient of 2.0, and is answered
    with confidence 1.0. *)
Theorem confidences_in_unit_interval :
  (∀ (lib : Strings) o elapsed req,
     ∃ resp, DetectLanguage o elapsed req = (Some resp, None) ∧
       inUnit (resp_Confidence resp) ∧
       Forall (λ alt, inUnit (alt_Confidence alt)) (resp_Alternatives resp)) ∧
  (∀ o,
     scoresOf (lib:=ascii_strings) "et" !! "fr" = Some 2 ∧
     ratio 2 1 = 2%Q ∧
     detectLanguage (lib:=ascii_strings) o "et" = ("fr", 1%Q, [])).
Proof.
  split.
  - intros lib o elapsed req.
    eexists. split; [apply DetectLanguage_response|]. simpl.
    unfold detectLanguage. apply detectWords_inUnit.
  - intros o. unfold scoresOf, detectLanguage.
    change (Fields (ToLower "et")) with ["et"].
    rewrite detectWords_words by done. cbv zeta.
    rewrite countWords_et. simpl.
    split; [done|]. split; [done|].
    pose proof (order_best_perm o {[ "fr" := 2 ]}) as Hbest.
    pose proof (order_alts_perm o {[ "fr" := 2 ]}) as Halts.
    rewrite map_to_list_singleton in Hbest, Halts.
    apply Permutation_singleton_r in Hbest, Halts.
    by rewrite Hbest, Halts.
Qed.

(** C5: no alternative of a response has the language code of the response. *)
Theorem alternatives_exclude_primary (lib : Strings) o elapsed req :
  ∃ resp, DetectLanguage o elapsed req = (Some resp, None) ∧
    Forall (λ alt, alt_LanguageCode alt ≠ resp_LanguageCode resp)
           (resp_Alternatives resp).
Proof.
  eexists. split; [apply DetectLanguage_response|]. simpl.
  unfold detectLanguage.
  destruct (Fields (ToLower (req_Text req))) as [|w words].
  - rewrite detectWords_nil. constructor.
  - rewrite detectWords_words by done. simpl.
    by apply collectAlternatives_Forall.
Qed.

(** C6: the language code of a response is not empty: it is one of "en",
    "es", "fr", "de", "it", or it is "unknown". *)
Theorem language_code_recognized_or_unknown (lib : Strings) o elapsed req :
  ∃ resp, DetectLanguage o elapsed req = (Some resp, None) ∧
    resp_LanguageCode resp ≠ "" ∧
    (resp_LanguageCode resp ∈ recognized ∨ resp_LanguageCode resp = "unknown").
Proof.
  eexists. split; [apply DetectLanguage_response|]. simpl.
  unfold detectLanguage.
  destruct (detectWords_code o (Fields (ToLower (req_Text req))))
    as [[-> _]|[Hcode _]].
  - split; [done|by right].
  - split; [|by left]. intros Hempty. rewrite Hempty in Hcode.
    revert Hcode. apply (bool_decide_unpack _). vm_compute. exact I.
Qed.

(** C7: the response carries the document id of the request, unchanged, the
    empty one included. *)
Theorem document_id_echoed (lib : Strings) o elapsed req :
  ∃ resp, DetectLanguage o elapsed req = (Some resp, None) ∧
    resp_DocumentId resp = req_DocumentId req.
Proof.
  eexists. split; [apply DetectLanguage_response|]. done.
Qed.

(** C9: the handler always returns a response and a nil error; when the
    text gives it nothing to decide on, the response says so in its fields. *)
Theorem handler_never_fails (lib : Strings) o elapsed req :
  ∃ resp, DetectLanguage o elapsed req = (Some resp, None) ∧
    (resp_LanguageCode resp = "unknown" ∨ resp_LanguageCode resp ∈ recognized) ∧
    inUnit (resp_Confidence resp).
Proof.
  eexists. split; [apply DetectLanguage_response|]. simpl.
  unfold detectLanguage. split.
  - destruct (detectWords_code o (Fields (ToLower (req_Text req))))
      as [[-> _]|[Hcode _]]; [by left|by right].
  - apply detectWords_inUnit.
Qed.

(** C10: a text with at least one word, none of them in a word list, is
    answered "en" with confidence 0.0 and no alternative; and the code
    "unknown" is returned exactly when the text has no word. *)
Theorem no_stop_word_defaults_to_en (lib : Strings) o text :
  (Fields (ToLower text) ≠ [] →
   Forall (λ word, ¬ stopWord word) (Fields (ToLower text)) →
   detectLanguage o text = ("en", 0%Q, [])) ∧
  ((detectLanguage o text).1.1 = "unknown" ↔ Fields (ToLower text) = []).
Proof.
  unfold detectLanguage. split.
  - apply detectWords_no_match.
  - destruct (detectWords_code o (Fields (ToLower text)))
      as [[Hcode Hnil]|[Hcode Hne]]; [done|].
    split; [|done]. intros Hunknown. rewrite Hunknown in Hcode.
    exfalso. revert Hcode. apply (bool_decide_unpack _). vm_compute. exact I.
Qed.

Lemma no_stop_word_defaults_to_en_witness :
  asciiFields (asciiToLower "Hola, mundo!") ≠ [] ∧
  Forall (λ word, ¬ stopWord word) (asciiFields (asciiToLower "Hola, mundo!")) ∧
  detectLanguage (lib:=ascii_strings) reverse_order "Hola, mundo!" = ("en", 0%Q, []).
Proof.
  assert (asciiFields (asciiToLower "Hola, mundo!") ≠ []) as Hne
    by (vm_compute; discriminate).
  assert (Forall (λ word, ¬ stopWord word) (asciiFields (asciiToLower "Hola, mundo!")))
    as Hno by (apply (bool_decide_unpack _); vm_compute; exact I).
  split; [exact Hne|]. split; [exact Hno|].
  apply (proj1 (no_stop_word_defaults_to_en ascii_strings reverse_order "Hola, mundo!"));
    [exact Hne|exact Hno].
Defined.

(** * The claims about the batch client *)

Section Batch.

Context {World Ctx : Type}.
Variable time_Now : State World ThirdParty.Time.
Variable Format_RFC3339 : ThirdParty.Time → string.

Abbreviation ProcessDocument := (ThirdParty.ProcessDocument time_Now Format_RFC3339).
Abbreviation batchLoop := (ThirdParty.batchLoop time_Now Format_RFC3339).
Abbreviation BatchProcessDocuments :=
  (ThirdParty.BatchProcessDocuments time_Now Format_RFC3339).
Abbreviation outcomes := (ThirdParty.outcomes time_Now Format_RFC3339).

Lemma outcomes_length (s : ThirdParty.ThirdPartyService (World:=World) (Ctx:=Ctx))
    ctx documents w :
  length (outcomes s ctx documents w).1 = length documents.
Proof.
  revert w. induction documents as [|doc documents IH]; intros w; [done|].
  simpl. unfold mbind, state_bind. simpl. by rewrite IH.
Qed.

Lemma outcomes_partition (outs : list (error + ThirdParty.DocumentInfo)) :
  length (ThirdParty.successes outs) + length (ThirdParty.failed outs) = length outs.
Proof.
  induction outs as [|[err|docInfo] outs IH]; simpl; [done|lia|lia].
Qed.

Lemma failureLines_length documents (outs : list (error + ThirdParty.DocumentInfo)) :
  length outs = length documents →
  length (ThirdParty.failureLines documents outs) = length (ThirdParty.failed outs).
Proof.
  revert outs. induction documents as [|doc documents IH];
    intros [|[err|docInfo] outs] Hlen; simpl in *; try done;
    rewrite IH by lia; done.
Qed.

Lemma batchLoop_spec (s : ThirdParty.ThirdPartyService (World:=World) (Ctx:=Ctx))
    ctx documents results p :
  batchLoop s ctx documents results p =
    ((results ++ ThirdParty.successes (outcomes s ctx documents (ThirdParty.world p)).1)%list,
     {| ThirdParty.world := (outcomes s ctx documents (ThirdParty.world p)).2;
        ThirdParty.logged :=
          (ThirdParty.logged p ++
           ThirdParty.failureLines documents
             (outcomes s ctx documents (ThirdParty.world p)).1)%list |}).
Proof.
  revert results p.
  induction documents as [|doc documents IH]; intros results [w lg]; simpl.
  - unfold mret, state_ret. simpl. by rewrite !app_nil_r.
  - unfold mbind, state_bind, ThirdParty.inWorld. simpl.
    destruct (ProcessDocument s ctx (ThirdParty.doc_Content doc)
                (ThirdParty.doc_ID doc) w) as [[err|docInfo] w'] eqn:Hdoc; simpl.
    + unfold ThirdParty.logFailure. simpl. rewrite IH. simpl.
      by rewrite <-app_assoc.
    + rewrite IH. simpl. by rewrite <-app_assoc.
Qed.

(** C8: the batch visits the documents in order, each with the
    surroundings the one before left, and goes on after a failure: it
    returns the results of the calls that succeeded, in order, and a nil
    error; it logs one line for each call that failed and keeps no error.
    So the number of results is the number of documents less the number of
    failures, and is smaller as soon as one call failed. *)
Theorem batch_returns_the_successes
    (s : ThirdParty.ThirdPartyService (World:=World) (Ctx:=Ctx)) ctx documents p :
  let run := outcomes s ctx documents (ThirdParty.world p) in
  BatchProcessDocuments s ctx documents p =
    ((ThirdParty.successes run.1, None),
     {| ThirdParty.world := run.2;
        ThirdParty.logged :=
          (ThirdParty.logged p ++ ThirdParty.failureLines documents run.1)%list |}) ∧
  length run.1 = length documents ∧
  length (ThirdParty.failureLines documents run.1) = length (ThirdParty.failed run.1) ∧
  (length (ThirdParty.successes run.1) + length (ThirdParty.failed run.1)
     = length documents)%nat ∧
  (ThirdParty.failed run.1 ≠ [] →
   (length (ThirdParty.successes run.1) < length documents)%nat).
Proof.
  intros run.
  pose proof (outcomes_length s ctx documents (ThirdParty.world p)) as Hlen.
  pose proof (outcomes_partition run.1) as Hpart.
  fold run in Hlen. rewrite Hlen in Hpart.
  split; [|split; [done|split; [by apply failureLines_length|split; [done|]]]].
  - unfold ThirdParty.BatchProcessDocuments, mbind, state_bind, mret, state_ret.
    by rewrite batchLoop_spec.
  - intros Hfailed. destruct (ThirdParty.failed run.1); [done|].
    simpl in Hpart. lia.
Qed.

End Batch.

Lemma batch_returns_the_successes_witness :
  let run :=
    ThirdParty.outcomes stoppedClock (λ _, "2024-12-20T14:30:22Z") flakyService ()
      fourDocuments 0 in
  let batch :=
    ThirdParty.BatchProcessDocuments stoppedClock (λ _, "2024-12-20T14:30:22Z")
      flakyService () fourDocuments
      {| ThirdParty.world := 0; ThirdParty.logged := [] |} in
  ThirdParty.failed run.1 ≠ [] ∧
  (length (ThirdParty.successes run.1) < length fourDocuments)%nat ∧
  ThirdParty.ID <$> batch.1.1 = ["doc-002"; "doc-004"; "doc-005"] ∧
  batch.1.2 = None ∧
  ThirdParty.world batch.2 = 4.
Proof.
  intros run batch.
  assert (ThirdParty.failed run.1 ≠ []) as Hfailed by (vm_compute; discriminate).
  split; [exact Hfailed|]. split.
  - apply (batch_returns_the_successes stoppedClock (λ _, "2024-12-20T14:30:22Z")
             flakyService () fourDocuments
             {| ThirdParty.world := 0; ThirdParty.logged := [] |}).
    exact Hfailed.
  - vm_compute. repeat split; reflexivity.
Defined.

(** * Further properties of the detector *)

(** ** Each score is a count of occurrences *)

Lemma Tallied_ext m f g : (∀ k, f k = g k) → Tallied m f → Tallied m g.
Proof. intros Hfg Hm k. rewrite <-Hfg. apply Hm. Qed.

Lemma Tallied_total m f k : Tallied m f → m !!! k = f k.
Proof.
  intros Hm. rewrite lookup_total_alt, Hm. by case_decide.
Qed.

Lemma Tallied_incr m f a :
  Tallied m f →
  Tallied (incr a m) (λ k, f k + if decide (k = a) then 1 else 0).
Proof.
  intros Hm k. unfold incr. rewrite (Tallied_total m f a Hm). cbv beta.
  destruct (decide (k = a)) as [->|Hka].
  - rewrite lookup_insert_eq. rewrite decide_False by lia. f_equal. lia.
  - rewrite lookup_insert_ne by done. by rewrite Hm, Nat.add_0_r.
Qed.

Lemma occurrences_cons w x la :
  occurrences w (x :: la) = (if decide (w = x) then 1 else 0) + occurrences w la.
Proof.
  unfold occurrences. rewrite filter_cons. by case_decide.
Qed.

Lemma Tallied_scanWords w a la m f :
  Tallied m f →
  Tallied (scanWords w a la m)
          (λ k, f k + if decide (k = a) then occurrences w la else 0).
Proof.
  revert m f. induction la as [|x la IH]; intros m f Hm.
  - eapply Tallied_ext; [|exact Hm]. intros k. simpl.
    case_decide; unfold occurrences; simpl; lia.
  - rewrite scanWords_cons. case_decide as Hw.
    + eapply Tallied_ext; [|apply IH, Tallied_incr, Hm].
      intros k. simpl. rewrite occurrences_cons, (decide_True (P:=w = x)) by done.
      case_decide; lia.
    + eapply Tallied_ext; [|apply IH, Hm].
      intros k. simpl. rewrite occurrences_cons, (decide_False (P:=w = x)) by done.
      case_decide; lia.
Qed.

Lemma Tallied_scanTable t w m f :
  Tallied m f →
  Tallied (scanTable t w m)
          (λ k, f k + sum_list_with
                        (λ entry, if decide (k = entry.1) then occurrences w entry.2 else 0) t).
Proof.
  unfold scanTable. revert m f. induction t as [|[a la] t IH]; intros m f Hm.
  - eapply Tallied_ext; [|exact Hm]. intros k. simpl. lia.
  - simpl. eapply Tallied_ext; [|apply IH, Tallied_scanWords, Hm].
    intros k. simpl. lia.
Qed.

Lemma table_sum_lookup (table : gmap string (list string)) (g : list string → nat) k :
  sum_list_with (λ entry, if decide (k = entry.1) then g entry.2 else 0)
                (map_to_list table)
  = from_option g 0 (table !! k).
Proof.
  induction table as [|a la table Ha IH] using map_ind.
  - by rewrite map_to_list_empty, lookup_empty.
  - rewrite map_to_list_insert by done. simpl. rewrite IH.
    destruct (decide (k = a)) as [->|Hka].
    + rewrite lookup_insert_eq, Ha. simpl. lia.
    + by rewrite lookup_insert_ne.
Qed.

Lemma table_sum_hits o i w k :
  sum_list_with (λ entry, if decide (k = entry.1) then occurrences w entry.2 else 0)
                (order_table o i)
  = hits k w.
Proof.
  rewrite order_table_perm, table_sum_lookup.
  unfold hits, wordList. by destruct (languageWords !! k).
Qed.

Lemma Tallied_countLoop o words st f :
  Tallied st.1 f →
  Tallied (foldl (countStep o) st words).1 (λ k, f k + tally k words).
Proof.
  revert st f. induction words as [|w words IH]; intros st f Hst; simpl.
  - eapply Tallied_ext; [|exact Hst]. intros k. unfold tally. simpl. lia.
  - eapply Tallied_ext; [|apply IH; simpl; apply Tallied_scanTable, Hst].
    intros k. simpl. rewrite table_sum_hits. unfold tally. simpl. lia.
Qed.

Lemma Tallied_countWords o words :
  Tallied (countWords o words).1 (λ k, tally k words).
Proof.
  eapply Tallied_ext; [|apply (Tallied_countLoop o words (∅, 0) (λ _, 0))].
  - done.
  - intros k. simpl. by rewrite lookup_empty.
Qed.

Lemma countWords_lookup o words lang n :
  (countWords o words).1 !! lang = Some n ↔ n = tally lang words ∧ 0 < n.
Proof.
  rewrite (Tallied_countWords o words lang). case_decide; split.
  - done.
  - intros [-> ?]. lia.
  - intros [= <-]. split; [done|lia].
  - by intros [-> _].
Qed.

Lemma tally_Permutation lang words1 words2 :
  words1 ≡ₚ words2 → tally lang words1 = tally lang words2.
Proof. intros Hw. unfold tally. by rewrite Hw. Qed.

Lemma occurrences_pos w la : 0 < occurrences w la ↔ w ∈ la.
Proof.
  induction la as [|x la IH].
  - split; [unfold occurrences; simpl; lia|by intros ?%elem_of_nil].
  - rewrite occurrences_cons, elem_of_cons. case_decide; [|rewrite <-IH]; split.
    + by left.
    + lia.
    + intros ?. right. lia.
    + intros [?|?]; [done|]. simpl. lia.
Qed.

Lemma stopWord_hits w : stopWord w ↔ ∃ lang, 0 < hits lang w.
Proof.
  unfold stopWord, hits, wordList. rewrite Exists_exists. split.
  - intros ([lang lws] & Hentry & Hw). exists lang.
    apply elem_of_map_to_list in Hentry. rewrite Hentry. simpl.
    by apply occurrences_pos.
  - intros (lang & Hw). apply occurrences_pos in Hw.
    destruct (languageWords !! lang) as [lws|] eqn:Hlang.
    + exists (lang, lws). split; [by apply elem_of_map_to_list|done].
    + by apply elem_of_nil in Hw.
Qed.

Lemma tally_pos lang words : 0 < tally lang words ↔ ∃ w, w ∈ words ∧ 0 < hits lang w.
Proof.
  unfold tally. induction words as [|w words IH]; simpl.
  - split; [lia|]. by intros (w & ?%elem_of_nil & _).
  - split.
    + intros Hpos. destruct (decide (0 < hits lang w)) as [Hw|Hw].
      * exists w. split; [by left|done].
      * destruct (proj1 IH) as (w' & Hin & Hw'); [lia|].
        exists w'. split; [by right|done].
    + intros (w' & [->|Hin]%elem_of_cons & Hw'); [lia|].
      assert (0 < sum_list_with (hits lang) words) by (apply IH; eauto). lia.
Qed.

Lemma no_stopWord_tally words :
  Forall (λ w, ¬ stopWord w) words ↔ ∀ lang, tally lang words = 0.
Proof.
  rewrite Forall_forall. split.
  - intros Hno lang. destruct (decide (tally lang words = 0)) as [|Hpos]; [done|].
    destruct (proj1 (tally_pos lang words)) as (w & Hin & Hw); [lia|].
    destruct (Hno w Hin). apply stopWord_hits. eauto.
  - intros Hzero w Hin [lang Hw]%stopWord_hits.
    assert (0 < tally lang words) by (apply tally_pos; eauto).
    rewrite Hzero in *. lia.
Qed.

(** ** The primary language and its confidence *)

Lemma findBest_tally o words :
  let best := findBest (order_best o (countWords map_order words).1) in
  best.2 = tally best.1 words ∧ ∀ lang, (tally lang words ≤ best.2)%nat.
Proof.
  intros best. subst best.
  destruct (findBest_spec (order_best o (countWords map_order words).1))
    as [[-> Hle]|(Hpos & Hin & Hle)]; simpl.
  - assert (∀ lang, tally lang words = 0) as Hzero.
    { intros lang. destruct (decide (tally lang words = 0)) as [|Hne]; [done|].
      assert ((lang, tally lang words) ∈ order_best o (countWords map_order words).1)
        as Hlang by (apply order_best_elem, countWords_lookup; split; [done|lia]).
      apply (proj1 (Forall_forall _ _) Hle) in Hlang. simpl in Hlang. lia. }
    split; [by rewrite Hzero|]. intros lang. by rewrite Hzero.
  - destruct (findBest _) as [b n]. simpl in *.
    apply order_best_elem, countWords_lookup in Hin as [-> _].
    split; [done|]. intros lang.
    destruct (decide (tally lang words = 0)) as [->|Hne]; [lia|].
    assert ((lang, tally lang words) ∈ order_best o (countWords map_order words).1)
      as Hlang by (apply order_best_elem, countWords_lookup; split; [done|lia]).
    by apply (proj1 (Forall_forall _ _) Hle) in Hlang.
Qed.

Lemma detectWords_primary o words :
  words ≠ [] →
  (∀ lang, (tally lang words ≤ tally (detectWords o words).1.1 words)%nat) ∧
  (detectWords o words).1.2
    = clamp (ratio (tally (detectWords o words).1.1 words) (length words)).
Proof.
  intros Hne. rewrite detectWords_words by done. simpl.
  destruct (findBest_tally o words) as [Hbest Hmax].
  simpl in Hbest, Hmax. rewrite <-Hbest. by split.
Qed.

(** ** Order among confidences *)

Lemma ratio_mono score1 score2 totalWords :
  (score1 ≤ score2)%nat → (ratio score1 totalWords <= ratio score2 totalWords)%Q.
Proof.
  intros Hle. unfold ratio. rewrite !Qred_correct. unfold Qle. simpl. nia.
Qed.

Lemma ratio_pos score totalWords :
  (0 < score)%nat → (0 < ratio score totalWords)%Q.
Proof.
  intros Hpos. unfold ratio. rewrite Qred_correct. unfold Qlt. simpl. lia.
Qed.

Lemma ratio_le_1 score totalWords :
  (score ≤ totalWords)%nat → (0 < totalWords)%nat →
  (ratio score totalWords <= 1)%Q.
Proof.
  intros Hle Hpos. unfold ratio. rewrite Qred_correct. unfold Qle. simpl.
  rewrite Z.mul_1_r, Z.mul_1_l. lia.
Qed.

Lemma clamp_mono c1 c2 : (c1 <= c2)%Q → (clamp c1 <= clamp c2)%Q.
Proof.
  intros Hle. unfold clamp.
  destruct (Qlt_le_dec 1 c1) as [H1|H1], (Qlt_le_dec 1 c2) as [H2|H2].
  - apply Qle_refl.
  - exfalso. apply (Qlt_irrefl 1).
    eapply Qlt_le_trans; [exact H1|]. by eapply Qle_trans.
  - exact H1.
  - exact Hle.
Qed.

Lemma clamp_pos c : (0 < c)%Q → (0 < clamp c)%Q.
Proof. intros Hc. unfold clamp. by destruct (Qlt_le_dec 1 c). Qed.

Lemma clamp_id c : (c <= 1)%Q → clamp c = c.
Proof.
  intros Hc. unfold clamp. destruct (Qlt_le_dec 1 c) as [H1|]; [|done].
  exfalso. apply (Qlt_irrefl 1). by eapply Qlt_le_trans.
Qed.

Lemma clamp_ratio_zero score totalWords :
  clamp (ratio score totalWords) = 0%Q → score = 0.
Proof.
  intros Hzero. destruct score as [|score]; [done|].
  pose proof (clamp_pos _ (ratio_pos (S score) totalWords ltac:(lia))) as Hpos.
  rewrite Hzero in Hpos. by apply Qlt_irrefl in Hpos.
Qed.

(** ** What the alternatives are *)

Lemma altLoop_filter bestLang totalWords (entries : list (string * nat)) alternatives :
  foldl (altStep bestLang totalWords) alternatives entries =
  (alternatives ++
   ((λ entry, {| alt_LanguageCode := entry.1;
                 alt_Confidence := clamp (ratio entry.2 totalWords) |})
      <$> filter (λ entry, entry.1 ≠ bestLang ∧ 0 < entry.2) entries))%list.
Proof.
  revert alternatives.
  induction entries as [|entry entries IH]; intros alternatives; simpl.
  - by rewrite app_nil_r.
  - rewrite IH, filter_cons. unfold altStep at 1.
    case_decide; [|done]. by rewrite <-app_assoc.
Qed.

Lemma detectWords_alternatives o words :
  words ≠ [] →
  (detectWords o words).2 =
    (λ entry, {| alt_LanguageCode := entry.1;
                 alt_Confidence := clamp (ratio entry.2 (length words)) |})
      <$> filter (λ entry, entry.1 ≠ (detectWords o words).1.1 ∧ 0 < entry.2)
                 (order_alts o (countWords map_order words).1).
Proof.
  intros Hne. rewrite detectWords_words by done. simpl.
  unfold collectAlternatives. by rewrite altLoop_filter.
Qed.

Lemma order_alts_elem o (scores : gmap string nat) lang score :
  (lang, score) ∈ order_alts o scores ↔ scores !! lang = Some score.
Proof. by rewrite order_alts_perm, elem_of_map_to_list. Qed.

Lemma detectWords_alternative_elem o words alt :
  alt ∈ (detectWords o words).2 ↔
  alt_LanguageCode alt ≠ (detectWords o words).1.1 ∧
  (0 < tally (alt_LanguageCode alt) words)%nat ∧
  alt_Confidence alt
    = clamp (ratio (tally (alt_LanguageCode alt) words) (length words)).
Proof.
  destruct (decide (words = [])) as [->|Hne].
  - rewrite detectWords_nil. simpl. split; [by intros ?%elem_of_nil|].
    intros (_ & Hpos & _). unfold tally in Hpos. simpl in Hpos. lia.
  - rewrite detectWords_alternatives by done.
    rewrite list_elem_of_fmap. split.
    + intros ([lang n] & -> & [[Hlang Hn] Hin]%list_elem_of_filter). simpl in *.
      apply order_alts_elem, countWords_lookup in Hin as [-> Hpos]. done.
    + intros (Hlang & Hpos & Hconf).
      exists (alt_LanguageCode alt, tally (alt_LanguageCode alt) words). split.
      * destruct alt as [lang conf]. simpl in *. by rewrite Hconf.
      * apply list_elem_of_filter. split; [done|].
        by apply order_alts_elem, countWords_lookup.
Qed.

Lemma detectWords_alternatives_NoDup o words :
  NoDup (alt_LanguageCode <$> (detectWords o words).2).
Proof.
  destruct (decide (words = [])) as [->|Hne].
  - rewrite detectWords_nil. constructor.
  - rewrite detectWords_alternatives by done.
    rewrite <-list_fmap_compose.
    apply (sublist_NoDup _ ((order_alts o (countWords map_order words).1).*1)).
    + rewrite order_alts_perm. apply NoDup_fst_map_to_list.
    + apply fmap_sublist, sublist_filter.
Qed.

Lemma tally_nil lang : tally lang [] = 0.
Proof. done. Qed.

Lemma detectWords_primary_all o words :
  (∀ lang, (tally lang words ≤ tally (detectWords o words).1.1 words)%nat) ∧
  (detectWords o words).1.2
    = clamp (ratio (tally (detectWords o words).1.1 words) (length words)).
Proof.
  destruct (decide (words = [])) as [->|Hne].
  - rewrite detectWords_nil. simpl. split; [done|].
    by rewrite ?tally_nil, ratio_zero, clamp_zero.
  - by apply detectWords_primary.
Qed.



Lemma countWords_Permutation o words1 words2 :
  words1 ≡ₚ words2 → countWords o words1 = countWords o words2.
Proof.
  intros Hw.
  rewrite (surjective_pairing (countWords o words1)),
          (surjective_pairing (countWords o words2)).
  f_equal.
  - apply map_eq. intros k.
    rewrite (Tallied_countWords o words1 k), (Tallied_countWords o words2 k).
    by rewrite (tally_Permutation k words1 words2).
  - by rewrite !countWords_total, Hw.
Qed.

Lemma table_lists_NoDup :
  Forall (λ entry, entry.1 = "fr" ∨ NoDup entry.2) (map_to_list languageWords).
Proof. apply (bool_decide_unpack _). vm_compute. exact I. Qed.

Lemma occurrences_NoDup w la : NoDup la → (occurrences w la ≤ 1)%nat.
Proof.
  induction 1 as [|x la Hx _ IH]; [unfold occurrences; simpl; lia|].
  rewrite occurrences_cons. case_decide as Hw; [|lia]. subst x.
  destruct (decide (0 < occurrences w la)) as [Hpos|]; [|lia].
  by apply occurrences_pos in Hpos.
Qed.

Lemma hits_le_1 lang w : lang ≠ "fr" → (hits lang w ≤ 1)%nat.
Proof.
  intros Hlang. unfold hits, wordList.
  destruct (languageWords !! lang) as [lws|] eqn:Hlws; simpl;
    [|unfold occurrences; simpl; lia].
  apply elem_of_map_to_list in Hlws.
  apply (proj1 (Forall_forall _ _) table_lists_NoDup) in Hlws as [?|Hnd]; [done|].
  by apply occurrences_NoDup.
Qed.

Lemma tally_le_length lang words :
  lang ≠ "fr" → (tally lang words ≤ length words)%nat.
Proof.
  intros Hlang. unfold tally. induction words as [|w words IH]; simpl; [lia|].
  pose proof (hits_le_1 lang w Hlang). lia.
Qed.

Lemma clamp_ratio_tally lang words :
  lang ≠ "fr" →
  clamp (ratio (tally lang words) (length words)) = ratio (tally lang words) (length words).
Proof.
  intros Hlang. destruct words as [|w words].
  - by rewrite tally_nil, ratio_zero, clamp_zero.
  - apply clamp_id, ratio_le_1; [by apply tally_le_length|simpl; lia].
Qed.

(** ** Confidences and quotients *)

Lemma ratio_quotient score totalWords :
  (0 < totalWords)%nat ∨ score = 0 →
  (ratio score totalWords
     == inject_Z (Z.of_nat score) / inject_Z (Z.of_nat totalWords))%Q.
Proof.
  intros [Hpos| ->].
  - unfold ratio. rewrite Qred_correct, Qmake_Qdiv.
    by replace (Z.pos (Pos.of_nat totalWords)) with (Z.of_nat totalWords) by lia.
  - rewrite ratio_zero. unfold Qdiv. by rewrite Qmult_0_l.
Qed.

Lemma clamp_Qmin c : (clamp c == Qmin 1 c)%Q.
Proof.
  unfold clamp. destruct (Qlt_le_dec 1 c) as [Hlt|Hle].
  - symmetry. apply Q.min_l. by apply Qlt_le_weak.
  - symmetry. by apply Q.min_r.
Qed.

(** In the model the confidence is the capped quotient itself; the bound is
    what the program keeps of it.  Each of the two conversions to [float32]
    and the division is off by at most one part in 2^24, and the quotient is
    at most 2, so the [float32] the program returns is within 2^-20 of the
    capped quotient as well. *)
Lemma confidence_close score totalWords :
  (0 < totalWords)%nat ∨ score = 0 →
  (Qabs (clamp (ratio score totalWords)
         - Qmin 1 (inject_Z (Z.of_nat score) / inject_Z (Z.of_nat totalWords)))
     <= 1 # 1048576)%Q.
Proof.
  intros Hwords.
  assert (clamp (ratio score totalWords)
            - Qmin 1 (inject_Z (Z.of_nat score) / inject_Z (Z.of_nat totalWords))
          == 0)%Q as ->.
  { rewrite clamp_Qmin, (ratio_quotient score totalWords Hwords). ring. }
  done.
Qed.

(** ** Statements *)


(** X2: after the scoring loop, the score of a language is the number of
    times the words of the text stand in its word list, a word listed twice
    counting twice; a language with no such hit has no entry in [scores]; and
    [totalWords] is the number of words.  No range order changes this. *)
Theorem score_is_the_number_of_hits o words lang :
  (countWords o words).1 !! lang
    = (if decide (tally lang words = 0) then None else Some (tally lang words)) ∧
  (countWords o words).2 = length words.
Proof.
  split; [apply Tallied_countWords|apply countWords_total].
Qed.

(** X3: the result depends on which words the text has and how often, not on
    their order: two texts whose word lists are permutations of each other
    get the same result from the same run. *)
Theorem word_order_is_irrelevant (lib : Strings) o text1 text2 :
  Fields (ToLower text1) ≡ₚ Fields (ToLower text2) →
  detectLanguage o text1 = detectLanguage o text2.
Proof.
  intros Hw. unfold detectLanguage, detectWords.
  by rewrite (countWords_Permutation o _ _ Hw).
Qed.

Lemma word_order_is_irrelevant_witness :
  asciiFields (asciiToLower "in la casa") ≡ₚ asciiFields (asciiToLower "LA  in casa") ∧
  detectLanguage (lib:=ascii_strings) reverse_order "in la casa"
    = detectLanguage (lib:=ascii_strings) reverse_order "LA  in casa".
Proof.
  assert (asciiFields (asciiToLower "in la casa")
            ≡ₚ asciiFields (asciiToLower "LA  in casa")) as Hw.
  { change (["in"; "la"; "casa"] ≡ₚ ["la"; "in"; "casa"]). apply perm_swap. }
  split; [exact Hw|].
  apply (word_order_is_irrelevant ascii_strings reverse_order
           "in la casa" "LA  in casa").
  exact Hw.
Defined.

(** X4: the primary language has the most hits among all languages, and
    the confidence is, up to the rounding of [float32], its number of hits
    divided by the number of words, or 1.0 when that is more.  When no word
    is in any list this is the default "en" with no hit, and for a text
    without words it is "unknown" with confidence 0.0. *)
Theorem primary_has_the_most_hits (lib : Strings) o text :
  let words := Fields (ToLower text) in
  let result := detectLanguage o text in
  (∀ lang, (tally lang words ≤ tally result.1.1 words)%nat) ∧
  (Qabs (result.1.2
         - Qmin 1 (inject_Z (Z.of_nat (tally result.1.1 words))
                   / inject_Z (Z.of_nat (length words))))
     <= 1 # 1048576)%Q.
Proof.
  intros words result. subst words result. unfold detectLanguage.
  destruct (detectWords_primary_all o (Fields (ToLower text))) as [Hmax ->].
  split; [exact Hmax|]. apply confidence_close.
  destruct (Fields (ToLower text)); [by right|left; simpl; lia].
Qed.

(** X5: the alternatives are exactly the languages with at least one hit
    other than the primary one, each once; the confidence of each is
    positive, never above the confidence of the primary language, and, up to
    the rounding of [float32], its number of hits divided by the number of
    words, or 1.0 when that is more. *)
Theorem alternatives_are_the_other_scoring_languages (lib : Strings) o text :
  let words := Fields (ToLower text) in
  let result := detectLanguage o text in
  (∀ lang, lang ∈ alt_LanguageCode <$> result.2 ↔
           lang ≠ result.1.1 ∧ (0 < tally lang words)%nat) ∧
  NoDup (alt_LanguageCode <$> result.2) ∧
  Forall (λ alt,
            (0 < alt_Confidence alt)%Q ∧
            (alt_Confidence alt <= result.1.2)%Q ∧
            (Qabs (alt_Confidence alt
                   - Qmin 1 (inject_Z (Z.of_nat (tally (alt_LanguageCode alt) words))
                             / inject_Z (Z.of_nat (length words))))
               <= 1 # 1048576)%Q)
         result.2.
Proof.
  intros words result. subst words result. unfold detectLanguage.
  set (words := Fields (ToLower text)).
  split; [|split; [apply detectWords_alternatives_NoDup|]].
  - intros lang. rewrite list_elem_of_fmap. split.
    + intros (alt & -> & Halt).
      by apply detectWords_alternative_elem in Halt as (? & ? & _).
    + intros [Hlang Hpos].
      exists {| alt_LanguageCode := lang;
                alt_Confidence := clamp (ratio (tally lang words) (length words)) |}.
      split; [done|]. by apply detectWords_alternative_elem.
  - apply Forall_forall. intros alt Halt.
    apply detectWords_alternative_elem in Halt as (Hlang & Hpos & Hconf).
    rewrite Hconf. split; [by apply clamp_pos, ratio_pos|]. split.
    + destruct (detectWords_primary_all o words) as [Hmax ->].
      apply clamp_mono, ratio_mono, Hmax.
    + apply confidence_close. left.
      destruct words; [by rewrite tally_nil in Hpos|simpl; lia].
Qed.

(** X6: the confidence is positive exactly when some word of the text is in
    some word list; otherwise it is 0.0, whatever the language code. *)
Theorem confidence_positive_iff_stop_word (lib : Strings) o text :
  ((0 < (detectLanguage o text).1.2)%Q ↔ Exists stopWord (Fields (ToLower text))) ∧
  ((detectLanguage o text).1.2 = 0%Q ↔
   Forall (λ word, ¬ stopWord word) (Fields (ToLower text))).
Proof.
  unfold detectLanguage. set (words := Fields (ToLower text)).
  destruct (detectWords_primary_all o words) as [Hmax Hconf].
  assert ((detectWords o words).1.2 = 0%Q ↔ Forall (λ word, ¬ stopWord word) words)
    as Hzero.
  { rewrite Hconf. split.
    - intros Hz%clamp_ratio_zero. apply no_stopWord_tally.
      intros lang. specialize (Hmax lang). lia.
    - intros Hno. rewrite (proj1 (no_stopWord_tally words) Hno).
      by rewrite ratio_zero, clamp_zero. }
  split; [|done]. split.
  - intros Hpos. destruct (decide (Exists stopWord words)) as [|Hno]; [done|].
    apply Forall_Exists_neg, Hzero in Hno.
    rewrite Hno in Hpos. by apply Qlt_irrefl in Hpos.
  - intros Hex. rewrite Hconf.
    destruct (decide (tally (detectWords o words).1.1 words = 0)) as [Hz|Hz].
    + exfalso. revert Hex. apply Forall_Exists_neg, no_stopWord_tally.
      intros lang. specialize (Hmax lang). lia.
    + apply clamp_pos, ratio_pos. lia.
Qed.

(** X7: a language other than French never scores above the number of
    words (its list has no word twice), so when the primary language is not
    French the quotient of its hits by the number of words is at most 1 and
    the clamp changes nothing: the confidence is, up to the rounding of
    [float32], that quotient.  Only French can be clamped. *)
Theorem only_french_is_clamped (lib : Strings) o text :
  (detectLanguage o text).1.1 ≠ "fr" →
  let words := Fields (ToLower text) in
  (tally (detectLanguage o text).1.1 words ≤ length words)%nat ∧
  (inject_Z (Z.of_nat (tally (detectLanguage o text).1.1 words))
     / inject_Z (Z.of_nat (length words)) <= 1)%Q ∧
  (Qabs ((detectLanguage o text).1.2
         - inject_Z (Z.of_nat (tally (detectLanguage o text).1.1 words))
           / inject_Z (Z.of_nat (length words)))
     <= 1 # 1048576)%Q.
Proof.
  unfold detectLanguage. intros Hfr. cbv zeta.
  set (words := Fields (ToLower text)).
  pose proof (tally_le_length _ words Hfr) as Hle.
  assert ((0 < length words)%nat ∨ tally (detectWords o words).1.1 words = 0) as Hwords.
  { destruct words; [by right|left; simpl; lia]. }
  assert (inject_Z (Z.of_nat (tally (detectWords o words).1.1 words))
            / inject_Z (Z.of_nat (length words)) <= 1)%Q as Hunit.
  { rewrite <-ratio_quotient by done. destruct Hwords as [Hpos|Hzero].
    - by apply ratio_le_1.
    - by rewrite Hzero, ratio_zero. }
  split; [exact Hle|]. split; [exact Hunit|].
  destruct (detectWords_primary_all o words) as [_ ->].
  pose proof (confidence_close (tally (detectWords o words).1.1 words) (length words)
                Hwords) as Hclose.
  by rewrite (Q.min_r _ _ Hunit) in Hclose.
Qed.

Lemma only_french_is_clamped_witness :
  (detectLanguage (lib:=ascii_strings) map_order "la casa de la playa").1.1 ≠ "fr" ∧
  (tally (detectLanguage (lib:=ascii_strings) map_order "la casa de la playa").1.1
         (@Fields ascii_strings (@ToLower ascii_strings "la casa de la playa"))
   ≤ length (@Fields ascii_strings (@ToLower ascii_strings "la casa de la playa")))%nat.
Proof.
  assert ((detectLanguage (lib:=ascii_strings) map_order "la casa de la playa").1.1 ≠ "fr")
    as Hfr by (vm_compute; discriminate).
  split; [exact Hfr|].
  destruct (only_french_is_clamped ascii_strings map_order "la casa de la playa" Hfr)
    as [Hle _].
  exact Hle.
Defined.

(** * Further properties of the third-party service *)

Section Processing.

Context {World Ctx : Type}.
Variable time_Now : State World ThirdParty.Time.
Variable Format_RFC3339 : ThirdParty.Time → string.

Abbreviation ProcessDocument := (ThirdParty.ProcessDocument time_Now Format_RFC3339).
Abbreviation batchLoop := (ThirdParty.batchLoop time_Now Format_RFC3339).
Abbreviation BatchProcessDocuments :=
  (ThirdParty.BatchProcessDocuments time_Now Format_RFC3339).
Abbreviation outcomes := (ThirdParty.outcomes time_Now Format_RFC3339).

Lemma ProcessDocument_cases
    (s : ThirdParty.ThirdPartyService (World:=World) (Ctx:=Ctx)) ctx content docID w :
  ∃ req w1,
    req_Text req = content ∧ req_DocumentId req = docID ∧
    let answer :=
      ThirdParty.client_DetectLanguage (ThirdParty.languageClient s) ctx req w1 in
    match answer.1 with
    | inl err => ProcessDocument s ctx content docID w = (inl err, answer.2)
    | inr resp =>
        ∃ info,
          ProcessDocument s ctx content docID w = (inr info, (time_Now answer.2).2) ∧
          ThirdParty.ID info = docID ∧
          ThirdParty.Content info = content ∧
          ThirdParty.doc_Language info = resp_LanguageCode resp ∧
          ThirdParty.doc_Confidence info = resp_Confidence resp ∧
          ThirdParty.ProcessedAt info = (time_Now answer.2).1 ∧
          ThirdParty.Language <$> ThirdParty.Alternatives info
            = alt_LanguageCode <$> resp_Alternatives resp ∧
          ThirdParty.Confidence <$> ThirdParty.Alternatives info
            = alt_Confidence <$> resp_Alternatives resp ∧
          match resp_Metadata resp with
          | Some meta =>
              ThirdParty.ProcessingTime info
                = ThirdParty.wrap 64 (meta_ProcessingTimeMs meta * 1000000) ∧
              ThirdParty.ServiceVersion info = meta_ServiceVersion meta ∧
              ThirdParty.ModelVersion info = meta_ModelVersion meta ∧
              ThirdParty.Provider info = meta_Provider meta
          | None =>
              ThirdParty.ProcessingTime info = 0%Z ∧
              ThirdParty.ServiceVersion info = "" ∧
              ThirdParty.ModelVersion info = "" ∧
              ThirdParty.Provider info = ""
          end
    end.
Proof.
  unfold ThirdParty.ProcessDocument, mbind, state_bind, mret, state_ret.
  exists {| req_Text := content;
            req_DocumentId := docID;
            req_Metadata :=
              list_to_map
                [ ("service", "third_party_service");
                  ("version", "1.0.0");
                  ("timestamp", Format_RFC3339 (time_Now w).1);
                  ("content_len",
                   ThirdParty.string_of_rune (Z.of_nat (String.length content))) ] |},
         (time_Now w).2.
  split; [reflexivity|]. split; [reflexivity|]. simpl.
  destruct (ThirdParty.client_DetectLanguage _ _ _ _) as [[err|resp] w2]; simpl.
  - done.
  - eexists. split; [reflexivity|].
    destruct (resp_Metadata resp) as [meta|]; simpl;
      rewrite <-!list_fmap_compose; done.
Qed.

Lemma ProcessDocument_ID
    (s : ThirdParty.ThirdPartyService (World:=World) (Ctx:=Ctx)) ctx content docID w info :
  (ProcessDocument s ctx content docID w).1 = inr info → ThirdParty.ID info = docID.
Proof.
  destruct (ProcessDocument_cases s ctx content docID w) as (req & w1 & _ & _ & Hcases).
  simpl in Hcases.
  destruct (ThirdParty.client_DetectLanguage _ _ _ _).1 as [err|resp].
  - rewrite Hcases. done.
  - destruct Hcases as (info' & -> & Hid & _). simpl. by intros [= <-].
Qed.

Lemma outcomes_cons (s : ThirdParty.ThirdPartyService (World:=World) (Ctx:=Ctx))
    ctx doc documents w :
  outcomes s ctx (doc :: documents) w =
    let first := ProcessDocument s ctx (ThirdParty.doc_Content doc)
                   (ThirdParty.doc_ID doc) w in
    (first.1 :: (outcomes s ctx documents first.2).1,
     (outcomes s ctx documents first.2).2).
Proof. done. Qed.

Lemma successes_ids (s : ThirdParty.ThirdPartyService (World:=World) (Ctx:=Ctx))
    ctx documents w :
  ThirdParty.ID <$> ThirdParty.successes (outcomes s ctx documents w).1
    `sublist_of` ThirdParty.doc_ID <$> documents.
Proof.
  revert w. induction documents as [|doc documents IH]; intros w.
  - simpl. constructor.
  - rewrite outcomes_cons. cbv zeta. simpl.
    destruct (ProcessDocument s ctx (ThirdParty.doc_Content doc)
                (ThirdParty.doc_ID doc) w).1 as [err|info] eqn:Hdoc; simpl.
    + apply sublist_cons, IH.
    + rewrite (ProcessDocument_ID _ _ _ _ _ _ Hdoc). apply sublist_skip, IH.
Qed.

Lemma BatchProcessDocuments_results
    (s : ThirdParty.ThirdPartyService (World:=World) (Ctx:=Ctx)) ctx documents p :
  BatchProcessDocuments s ctx documents p =
    ((ThirdParty.successes (outcomes s ctx documents (ThirdParty.world p)).1, None),
     {| ThirdParty.world := (outcomes s ctx documents (ThirdParty.world p)).2;
        ThirdParty.logged :=
          (ThirdParty.logged p ++
           ThirdParty.failureLines documents
             (outcomes s ctx documents (ThirdParty.world p)).1)%list |}).
Proof.
  unfold ThirdParty.BatchProcessDocuments, mbind, state_bind, mret, state_ret.
  by rewrite batchLoop_spec.
Qed.

(** X9: the ids of the results of a batch are, in order, ids of the
    documents of the batch: each result can be traced to its document, and no
    result comes before a result of an earlier document. *)
Theorem batch_results_keep_document_order
    (s : ThirdParty.ThirdPartyService (World:=World) (Ctx:=Ctx)) ctx documents p :
  ThirdParty.ID <$> (BatchProcessDocuments s ctx documents p).1.1
    `sublist_of` ThirdParty.doc_ID <$> documents.
Proof.
  rewrite BatchProcessDocuments_results. simpl. apply successes_ids.
Qed.

Lemma batchLoop_app (s : ThirdParty.ThirdPartyService (World:=World) (Ctx:=Ctx))
    ctx documents1 documents2 results p :
  batchLoop s ctx (documents1 ++ documents2) results p =
    batchLoop s ctx documents2 (batchLoop s ctx documents1 results p).1
              (batchLoop s ctx documents1 results p).2.
Proof.
  revert results p. induction documents1 as [|doc documents1 IH]; intros results p.
  - done.
  - simpl. unfold mbind, state_bind, ThirdParty.inWorld. simpl.
    destruct (ProcessDocument s ctx (ThirdParty.doc_Content doc)
                (ThirdParty.doc_ID doc) (ThirdParty.world p)) as [[err|info] w'];
      simpl; apply IH.
Qed.

(** X10: a batch of two lists of documents put end to end is the batch of
    the first list followed, in the process it leaves, by the batch of the
    second: the results are those of the first then those of the second. *)
Theorem batch_of_appended_documents
    (s : ThirdParty.ThirdPartyService (World:=World) (Ctx:=Ctx))
    ctx documents1 documents2 p :
  let first := BatchProcessDocuments s ctx documents1 p in
  let second := BatchProcessDocuments s ctx documents2 first.2 in
  BatchProcessDocuments s ctx (documents1 ++ documents2) p =
    (((first.1.1 ++ second.1.1)%list, None), second.2).
Proof.
  intros first second. subst first second.
  unfold ThirdParty.BatchProcessDocuments, mbind, state_bind, mret, state_ret.
  simpl. rewrite batchLoop_app.
  rewrite (batchLoop_spec _ _ s ctx documents2 (batchLoop s ctx documents1 [] p).1).
  rewrite (batchLoop_spec _ _ s ctx documents2 []).
  done.
Qed.

Lemma outcomes_all_fail (s : ThirdParty.ThirdPartyService (World:=World) (Ctx:=Ctx))
    ctx documents w :
  (∀ ctx req w, ∃ err,
     (ThirdParty.client_DetectLanguage (ThirdParty.languageClient s) ctx req w).1
       = inl err) →
  ThirdParty.successes (outcomes s ctx documents w).1 = [] ∧
  length (ThirdParty.failureLines documents (outcomes s ctx documents w).1)
    = length documents.
Proof.
  intros Hfail. revert w. induction documents as [|doc documents IH]; intros w.
  - done.
  - rewrite outcomes_cons. cbv zeta. simpl.
    destruct (ProcessDocument_cases s ctx (ThirdParty.doc_Content doc)
                (ThirdParty.doc_ID doc) w) as (req & w1 & _ & _ & Hcases).
    simpl in Hcases. destruct (Hfail ctx req w1) as [err Herr].
    rewrite Herr in Hcases. rewrite Hcases. simpl.
    destruct (IH (ThirdParty.client_DetectLanguage (ThirdParty.languageClient s)
                    ctx req w1).2) as [-> ->].
    done.
Qed.

(** X11: when every call of the client fails, the batch still returns a nil
    error, with no result at all, and has logged one line for each document:
    the returned values alone do not tell this batch from an empty one. *)
Theorem batch_of_failures_is_empty
    (s : ThirdParty.ThirdPartyService (World:=World) (Ctx:=Ctx)) ctx documents p :
  (∀ ctx req w, ∃ err,
     (ThirdParty.client_DetectLanguage (ThirdParty.languageClient s) ctx req w).1
       = inl err) →
  (BatchProcessDocuments s ctx documents p).1 = ([], None) ∧
  (BatchProcessDocuments s ctx documents p).1 = (BatchProcessDocuments s ctx [] p).1 ∧
  length (ThirdParty.logged (BatchProcessDocuments s ctx documents p).2)
    = length (ThirdParty.logged p) + length documents.
Proof.
  intros Hfail. rewrite BatchProcessDocuments_results. simpl.
  destruct (outcomes_all_fail s ctx documents (ThirdParty.world p) Hfail) as [-> Hlen].
  split; [done|]. split; [done|]. by rewrite length_app, Hlen.
Qed.

Lemma wrap_small w n :
  (0 < w)%Z → (- 2 ^ (w - 1) ≤ n < 2 ^ (w - 1))%Z → ThirdParty.wrap w n = n.
Proof.
  intros Hw Hn. unfold ThirdParty.wrap.
  replace (2 ^ w)%Z with (2 * 2 ^ (w - 1))%Z
    by (rewrite <-Z.pow_succ_r by lia; f_equal; lia).
  rewrite Z.mod_small by lia. lia.
Qed.

Lemma whole_milliseconds elapsed :
  (- 2 ^ 63 ≤ elapsed < 2 ^ 63)%Z →
  ThirdParty.wrap 64 (Z.quot elapsed 1000000 * 1000000)
    = (elapsed - Z.rem elapsed 1000000)%Z.
Proof.
  intros Hrange.
  pose proof (Z.quot_rem' elapsed 1000000) as Hqr.
  assert (Z.abs (Z.rem elapsed 1000000) < 1000000)%Z as Hrem
    by (apply Z.rem_bound_abs; lia).
  assert (0 ≤ Z.rem elapsed 1000000 * elapsed)%Z as Hsign
    by (apply Z.rem_sign_mul; lia).
  rewrite wrap_small; [lia|lia|]. change (64 - 1)%Z with 63%Z. nia.
Qed.

Lemma detectWords_alternatives_exclude o words :
  Forall (λ alt, alt_LanguageCode alt ≠ (detectWords o words).1.1)
         (detectWords o words).2.
Proof.
  apply Forall_forall. intros alt Halt.
  by apply detectWords_alternative_elem in Halt as [? _].
Qed.

Lemma process_over_link (lib : Strings) o elapsed (ctx : Ctx) content docID w :
  ProcessDocument {| ThirdParty.languageClient := serverLink lib o elapsed |}
      ctx content docID w =
    (inr {| ThirdParty.ID := docID;
            ThirdParty.Content := content;
            ThirdParty.doc_Language := (detectLanguage o content).1.1;
            ThirdParty.doc_Confidence := (detectLanguage o content).1.2;
            ThirdParty.ProcessedAt := (time_Now (time_Now w).2).1;
            ThirdParty.Alternatives :=
              (λ alt, {| ThirdParty.Language := alt_LanguageCode alt;
                         ThirdParty.Confidence := alt_Confidence alt |})
                <$> (detectLanguage o content).2;
            ThirdParty.ProcessingTime :=
              ThirdParty.wrap 64 (Z.quot elapsed 1000000 * 1000000);
            ThirdParty.ServiceVersion := "1.0.0";
            ThirdParty.ModelVersion := "simple-word-based-v1.0";
            ThirdParty.Provider := "ld_proto_example" |},
     (time_Now (time_Now w).2).2).
Proof.
  unfold ThirdParty.ProcessDocument, mbind, state_bind, mret, state_ret.
  unfold serverLink. simpl. rewrite DetectLanguage_response. done.
Qed.

(** X12: over a link to the handler of the server, [ProcessDocument] never
    fails, for any text and id.  The document it returns has the id and the
    content given, a language that is a recognized code or "unknown", a
    confidence between 0.0 and 1.0, alternatives in that range that are not
    the language, the versions of the server, and as processing time the
    time the handler measured, cut to whole milliseconds. *)
Theorem process_document_over_server_link (lib : Strings) o elapsed (ctx : Ctx)
    content docID w :
  (- 2 ^ 63 ≤ elapsed < 2 ^ 63)%Z →
  ∃ info,
    (ProcessDocument {| ThirdParty.languageClient := serverLink lib o elapsed |}
       ctx content docID w).1 = inr info ∧
    ThirdParty.ID info = docID ∧
    ThirdParty.Content info = content ∧
    ThirdParty.doc_Language info = (detectLanguage o content).1.1 ∧
    (ThirdParty.doc_Language info ∈ recognized ∨
     ThirdParty.doc_Language info = "unknown") ∧
    inUnit (ThirdParty.doc_Confidence info) ∧
    Forall (λ alt, ThirdParty.Language alt ≠ ThirdParty.doc_Language info ∧
                   inUnit (ThirdParty.Confidence alt))
           (ThirdParty.Alternatives info) ∧
    ThirdParty.ProcessingTime info = (elapsed - Z.rem elapsed 1000000)%Z ∧
    ThirdParty.ServiceVersion info = "1.0.0" ∧
    ThirdParty.ModelVersion info = "simple-word-based-v1.0" ∧
    ThirdParty.Provider info = "ld_proto_example".
Proof.
  intros Hrange. eexists. rewrite process_over_link. simpl.
  split; [reflexivity|]. simpl. unfold detectLanguage.
  set (words := Fields (ToLower content)).
  repeat split.
  - destruct (detectWords_code o words) as [[-> _]|[Hcode _]]; [by right|by left].
  - apply detectWords_inUnit.
  - apply detectWords_inUnit.
  - apply Forall_fmap, Forall_forall. intros alt Halt. simpl.
    split.
    + by apply (proj1 (Forall_forall _ _) (detectWords_alternatives_exclude o words)).
    + by apply (proj1 (Forall_forall _ _) (proj2 (detectWords_inUnit o words))).
  - by apply whole_milliseconds.
Qed.



End Processing.

Lemma process_document_over_server_link_witness :
  (- 2 ^ 63 ≤ 1234567 < 2 ^ 63)%Z ∧
  ∃ info,
    (ThirdParty.ProcessDocument stoppedClock (λ _, "2024-12-20T14:30:22Z")
       {| ThirdParty.languageClient := serverLink ascii_strings map_order 1234567 |}
       () "the casa is in la" "doc-001" 0).1 = inr info ∧
    ThirdParty.ID info = "doc-001" ∧
    ThirdParty.ProcessingTime info = 1000000%Z.
Proof.
  assert (- 2 ^ 63 ≤ 1234567 < 2 ^ 63)%Z as Hrange by lia.
  split; [exact Hrange|].
  destruct (process_document_over_server_link stoppedClock (λ _, "2024-12-20T14:30:22Z")
              ascii_strings map_order 1234567 () "the casa is in la" "doc-001" 0 Hrange)
    as (info & Hinfo & Hid & _ & _ & _ & _ & _ & Htime & _).
  exists info. split; [exact Hinfo|]. split; [exact Hid|]. exact Htime.
Defined.

Lemma batch_of_failures_is_empty_witness :
  let down : ThirdParty.ThirdPartyService (World:=nat) (Ctx:=()) :=
    {| ThirdParty.languageClient :=
         {| ThirdParty.client_DetectLanguage := λ _ _ calls,
              (inl transientFailure, S calls) |} |} in
  (∀ ctx req w, ∃ err,
     (ThirdParty.client_DetectLanguage (ThirdParty.languageClient down) ctx req w).1
       = inl err) ∧
  (ThirdParty.BatchProcessDocuments stoppedClock (λ _, "2024-12-20T14:30:22Z")
     down () fourDocuments {| ThirdParty.world := 0; ThirdParty.logged := [] |}).1
    = ([], None).
Proof.
  intros down.
  assert (∀ ctx req w, ∃ err,
            (ThirdParty.client_DetectLanguage (ThirdParty.languageClient down) ctx req w).1
              = inl err) as Hdown by (intros; by eexists).
  split; [exact Hdown|].
  apply (batch_of_failures_is_empty stoppedClock (λ _, "2024-12-20T14:30:22Z")
           down () fourDocuments {| ThirdParty.world := 0; ThirdParty.logged := [] |}
           Hdown).
Defined.

(** ** What the client is sent *)

Lemma string_of_rune_ascii n :
  (n < 128)%nat →
  ThirdParty.string_of_rune (Z.of_nat n) = String (ascii_of_nat n) "".
Proof.
  intros Hn. unfold ThirdParty.string_of_rune.
  rewrite (wrap_small 32) by (change (2 ^ (32 - 1))%Z with 2147483648%Z; lia).
  rewrite decide_False by lia. rewrite decide_True by lia.
  unfold ThirdParty.byte_string, ascii_of_nat. simpl.
  by rewrite <-nat_N_Z, N2Z.id.
Qed.

Lemma process_recorded {Ctx : Type} answer t fmt (ctx : Ctx) content docID sent :
  (ThirdParty.ProcessDocument (clockAt t) fmt
     {| ThirdParty.languageClient := recordingClient answer |}
     ctx content docID sent).2
  = (sent ++
     [ {| req_Text := content;
          req_DocumentId := docID;
          req_Metadata :=
            list_to_map
              [ ("service", "third_party_service");
                ("version", "1.0.0");
                ("timestamp", fmt t);
                ("content_len",
                 ThirdParty.string_of_rune (Z.of_nat (String.length content))) ] |} ])%list.
Proof.
  unfold ThirdParty.ProcessDocument, mbind, state_bind, mret, state_ret. simpl.
  by destruct (answer _).
Qed.

Lemma byte_string_length bs : String.length (ThirdParty.byte_string bs) = length bs.
Proof. induction bs as [|b bs IH]; simpl; [done|by rewrite IH]. Qed.

Lemma string_of_rune_length n :
  (1 ≤ String.length (ThirdParty.string_of_rune n) ≤ 4)%nat.
Proof.
  unfold ThirdParty.string_of_rune.
  repeat case_decide; rewrite byte_string_length; simpl; lia.
Qed.

(** X14: whatever the client answers and whatever the content,
    [ProcessDocument] sends the client one request and no more.  The request
    carries the content and the id, and four entries of metadata: the name
    and version of the service, the time the clock read, formatted, and
    under "content_len" the UTF-8 encoding of the code point whose number is
    the length of the content in bytes, one to four bytes long: for a content
    of less than 128 bytes, the one byte of that value, not its decimal
    digits. *)
Theorem request_sent_by_process_document {Ctx : Type} answer t fmt (ctx : Ctx)
    content docID sent :
  ∃ req,
    (ThirdParty.ProcessDocument (clockAt t) fmt
       {| ThirdParty.languageClient := recordingClient answer |}
       ctx content docID sent).2 = (sent ++ [req])%list ∧
    req_Text req = content ∧
    req_DocumentId req = docID ∧
    size (req_Metadata req) = 4 ∧
    req_Metadata req !! "service" = Some "third_party_service" ∧
    req_Metadata req !! "version" = Some "1.0.0" ∧
    req_Metadata req !! "timestamp" = Some (fmt t) ∧
    ∃ content_len,
      req_Metadata req !! "content_len" = Some content_len ∧
      content_len = ThirdParty.string_of_rune (Z.of_nat (String.length content)) ∧
      (1 ≤ String.length content_len ≤ 4)%nat ∧
      ((String.length content < 128)%nat →
       content_len = String (ascii_of_nat (String.length content)) "").
Proof.
  eexists. split; [apply process_recorded|]. simpl.
  do 6 (split; [reflexivity|]).
  eexists. split; [reflexivity|]. split; [reflexivity|].
  split; [apply string_of_rune_length|]. apply string_of_rune_ascii.
Qed.

Lemma request_sent_by_process_document_witness :
  (String.length "Hello, world!" < 128)%nat ∧
  ∃ req,
    (ThirdParty.ProcessDocument (clockAt 0%Z) (λ _, "2024-12-20T14:30:22Z")
       {| ThirdParty.languageClient := recordingClient (λ _, inl transientFailure) |}
       () "Hello, world!" "doc-123" []).2 = [req] ∧
    req_Metadata req !! "content_len" = Some (String (ascii_of_nat 13) "").
Proof.
  assert (String.length "Hello, world!" < 128)%nat as Hlen by (simpl; lia).
  split; [exact Hlen|].
  destruct (request_sent_by_process_document (λ _, inl transientFailure) 0%Z
              (λ _, "2024-12-20T14:30:22Z") () "Hello, world!" "doc-123" [])
    as (req & Hsent & _ & _ & _ & _ & _ & _ & content_len & Hlookup & _ & _ & Hbyte).
  exists req. split; [exact Hsent|].
  rewrite Hlookup. f_equal. apply Hbyte. exact Hlen.
Defined.

Lemma outcomes_recorded {Ctx : Type} answer t fmt (ctx : Ctx) documents sent :
  req_DocumentId <$>
    (ThirdParty.outcomes (clockAt t) fmt
       {| ThirdParty.languageClient := recordingClient answer |} ctx documents sent).2
    = ((req_DocumentId <$> sent) ++ (ThirdParty.doc_ID <$> documents))%list ∧
  req_Text <$>
    (ThirdParty.outcomes (clockAt t) fmt
       {| ThirdParty.languageClient := recordingClient answer |} ctx documents sent).2
    = ((req_Text <$> sent) ++ (ThirdParty.doc_Content <$> documents))%list.
Proof.
  revert sent. induction documents as [|doc documents IH]; intros sent.
  - simpl. by rewrite !app_nil_r.
  - rewrite outcomes_cons. cbv zeta. cbn [snd].
    destruct (IH (ThirdParty.ProcessDocument (clockAt t) fmt
                    {| ThirdParty.languageClient := recordingClient answer |} ctx
                    (ThirdParty.doc_Content doc) (ThirdParty.doc_ID doc) sent).2)
      as [-> ->].
    rewrite process_recorded, !fmap_app. simpl.
    by rewrite <-!app_assoc.
Qed.

(** X15: whatever the client answers, failures included, a batch sends it
    exactly one request for each document, in the order of the documents,
    each with the content and the id of its document: a document is never
    sent twice and none is left out after a failure. *)
Theorem batch_sends_each_document_once {Ctx : Type} answer t fmt (ctx : Ctx) documents p :
  let batch :=
    ThirdParty.BatchProcessDocuments (clockAt t) fmt
      {| ThirdParty.languageClient := recordingClient answer |} ctx documents p in
  req_DocumentId <$> ThirdParty.world batch.2
    = ((req_DocumentId <$> ThirdParty.world p) ++ (ThirdParty.doc_ID <$> documents))%list ∧
  req_Text <$> ThirdParty.world batch.2
    = ((req_Text <$> ThirdParty.world p) ++ (ThirdParty.doc_Content <$> documents))%list ∧
  length (ThirdParty.world batch.2)
    = length (ThirdParty.world p) + length documents.
Proof.
  intros batch. subst batch. rewrite BatchProcessDocuments_results. simpl.
  destruct (outcomes_recorded answer t fmt ctx documents (ThirdParty.world p))
    as [Hids Htexts].
  split; [exact Hids|]. split; [exact Htexts|].
  by rewrite <-(length_fmap req_DocumentId), Hids, length_app, !length_fmap.
Qed.
